(** * pyjsl/warnings.py: the lint warnings of jsl

    A shallow embedding of the warning module of jsl: the reachability
    analysis [_get_exit_points], the warning functions that the properties
    below are about, and the registration decorator [lookfor]. *)

From Stdlib Require Import ZArith Floats Ascii.
From stdpp Require Import gmap strings list.

#[local] Set Warnings "-clear-no-such-hyp".

(** ** Token kinds and opcodes

    [tok] and [op] are imported from pyspidermonkey, which is not part of
    the module; these are the members that warnings.py names. *)

Module tok.
Inductive t :=
  | LC | IF | SWITCH | CASE | DEFAULT | BREAK | CONTINUE | WITH | RETURN
  | THROW | TRY | RESERVED | LEXICALSCOPE | CATCH | EQOP | RELOP | PRIMARY
  | NUMBER | STRING | NAME | ASSIGN | COLON | RC | LP | DOT | OBJECT | FOR
  | WHILE | DO | INC | DEC | SEMI | COMMA | RB | PLUS | MINUS | VAR
  | FUNCTION | UNARYOP.
End tok.

Module op.
Inductive t :=
  | NOP | EQ | NULL | TRUE | FALSE | REGEXP | SETNAME | CALL | GETPROP
  | NAME | VOID.
End op.

#[global] Instance tok_eq_dec : EqDecision tok.t.
Proof. solve_decision. Defined.

#[global] Instance op_eq_dec : EqDecision op.t.
Proof. solve_decision. Defined.

Definition tok_code (k : tok.t) : nat :=
  match k with
  | tok.LC => 0 | tok.IF => 1 | tok.SWITCH => 2 | tok.CASE => 3
  | tok.DEFAULT => 4 | tok.BREAK => 5 | tok.CONTINUE => 6 | tok.WITH => 7
  | tok.RETURN => 8 | tok.THROW => 9 | tok.TRY => 10 | tok.RESERVED => 11
  | tok.LEXICALSCOPE => 12 | tok.CATCH => 13 | tok.EQOP => 14
  | tok.RELOP => 15 | tok.PRIMARY => 16 | tok.NUMBER => 17 | tok.STRING => 18
  | tok.NAME => 19 | tok.ASSIGN => 20 | tok.COLON => 21 | tok.RC => 22
  | tok.LP => 23 | tok.DOT => 24 | tok.OBJECT => 25 | tok.FOR => 26
  | tok.WHILE => 27 | tok.DO => 28 | tok.INC => 29 | tok.DEC => 30
  | tok.SEMI => 31 | tok.COMMA => 32 | tok.RB => 33 | tok.PLUS => 34
  | tok.MINUS => 35 | tok.VAR => 36 | tok.FUNCTION => 37 | tok.UNARYOP => 38
  end.

Definition tok_of_code (c : nat) : tok.t :=
  match c with
  | 0 => tok.LC | 1 => tok.IF | 2 => tok.SWITCH | 3 => tok.CASE
  | 4 => tok.DEFAULT | 5 => tok.BREAK | 6 => tok.CONTINUE | 7 => tok.WITH
  | 8 => tok.RETURN | 9 => tok.THROW | 10 => tok.TRY | 11 => tok.RESERVED
  | 12 => tok.LEXICALSCOPE | 13 => tok.CATCH | 14 => tok.EQOP
  | 15 => tok.RELOP | 16 => tok.PRIMARY | 17 => tok.NUMBER | 18 => tok.STRING
  | 19 => tok.NAME | 20 => tok.ASSIGN | 21 => tok.COLON | 22 => tok.RC
  | 23 => tok.LP | 24 => tok.DOT | 25 => tok.OBJECT | 26 => tok.FOR
  | 27 => tok.WHILE | 28 => tok.DO | 29 => tok.INC | 30 => tok.DEC
  | 31 => tok.SEMI | 32 => tok.COMMA | 33 => tok.RB | 34 => tok.PLUS
  | 35 => tok.MINUS | 36 => tok.VAR | 37 => tok.FUNCTION | _ => tok.UNARYOP
  end.

#[global] Instance tok_countable : Countable tok.t :=
  inj_countable' tok_code tok_of_code ltac:(by intros []).

Definition op_code (o : op.t) : nat :=
  match o with
  | op.NOP => 0 | op.EQ => 1 | op.NULL => 2 | op.TRUE => 3 | op.FALSE => 4
  | op.REGEXP => 5 | op.SETNAME => 6 | op.CALL => 7 | op.GETPROP => 8
  | op.NAME => 9 | op.VOID => 10
  end.

Definition op_of_code (c : nat) : op.t :=
  match c with
  | 0 => op.NOP | 1 => op.EQ | 2 => op.NULL | 3 => op.TRUE | 4 => op.FALSE
  | 5 => op.REGEXP | 6 => op.SETNAME | 7 => op.CALL | 8 => op.GETPROP
  | 9 => op.NAME | _ => op.VOID
  end.

#[global] Instance op_countable : Countable op.t :=
  inj_countable' op_code op_of_code ltac:(by intros []).

(** ** Syntax trees

    A node of the parse tree with the attributes that the module reads:
    [kind], [opcode], [atom] (the text of a literal or name), [dval] (the
    value of a numeric literal, a double) and [kids], where a slot of
    [kids] is [None] for an elided position such as a missing [else]. *)

#[local] Unset Elimination Schemes.
Inductive node :=
  Node (kind : tok.t) (opcode : op.t) (atom : string) (dval : float)
       (kids : list (option node)).
#[local] Set Elimination Schemes.

Definition kind (n : node) : tok.t := let 'Node k _ _ _ _ := n in k.
Definition opcode (n : node) : op.t := let 'Node _ o _ _ _ := n in o.
Definition atom (n : node) : string := let 'Node _ _ a _ _ := n in a.
Definition dval (n : node) : float := let 'Node _ _ _ d _ := n in d.
Definition kids (n : node) : list (option node) :=
  let 'Node _ _ _ _ ks := n in ks.

(** [node.parent] and [node.node_index]: a node object is a subtree
    together with the chain of its ancestors, nearest first, each with the
    index of the slot that leads down to the subtree. *)

Definition ancestors := list (node * nat).

Record nodeobj := NodeObj { focus : node; above : ancestors }.

Definition parent (o : nodeobj) : option nodeobj :=
  match above o with
  | [] => None
  | (p, _) :: up => Some (NodeObj p up)
  end.

Definition node_index (o : nodeobj) : option nat :=
  match above o with
  | [] => None
  | (_, i) :: _ => Some i
  end.

(** [o.kids[i]] as a node object; [None] is an elided slot. *)
Definition kid_obj (o : nodeobj) (i : nat) (k : option node)
  : option nodeobj :=
  (λ n, NodeObj n ((focus o, i) :: above o)) <$> k.

(** ** Exceptions

    A warning is reported by raising [LintWarning] with the node to flag;
    the other exceptions are the ones the interpreter raises on a tree of
    an unexpected shape. *)

Inductive exn :=
  | LintWarning (target : option nodeobj)
  | AttributeError
  | ValueError
  | IndexError
  | KeyError
  | AssertionError
  | TypeError.

Inductive result (A : Type) :=
  | Ok (a : A)
  | Raise (e : exn).
Arguments Ok {A} a.
Arguments Raise {A} e.

#[global] Instance result_bind : MBind result := λ A B f r,
  match r with
  | Ok a => f a
  | Raise e => Raise e
  end.

(** [assert c] *)
Definition py_assert (c : bool) : result unit :=
  if c then Ok tt else Raise AssertionError.

(** ** Exit points

    The members of an exit-point set are [None] (control falls through
    the statement) and the kinds [tok.BREAK], [tok.RETURN], [tok.THROW]. *)

Abbreviation exit_set := (gset (option tok.t)).

(** [s.remove(x)], which raises [KeyError] when [x] is not a member. *)
Definition set_remove (x : option tok.t) (s : exit_set) : result exit_set :=
  if decide (x ∈ s) then Ok (s ∖ {[x]}) else Raise KeyError.

(** [if x in s: s.remove(x)] *)
Definition discard (x : option tok.t) (s : exit_set) : exit_set :=
  if decide (x ∈ s) then s ∖ {[x]} else s.

(** ** The reachability analysis *)

Section loops.
(** The loops of [_get_exit_points], over the recursive call. *)
Variable rec : node → ancestors → result exit_set.

(** [for kid in node.kids] of a block; [i] is the index of the head of
    [l] among the kids of [n]. *)
Fixpoint block_loop (n : node) (up : ancestors) (l : list (option node))
    (i : nat) (exit_points : exit_set) {struct l} : result exit_set :=
  match l with
  | [] => Ok exit_points
  | kid :: l' =>
      (* "None" is only a valid exit point for the last statement. *)
      let exit_points := discard None exit_points in
      match kid with
      | Some kid =>
          e ← rec kid ((n, i) :: up);
          block_loop n up l' (S i) (exit_points ∪ e)
      | None => block_loop n up l' (S i) exit_points
      end
  end.

(** [for node in switch_stmts.kids]; the state is [exit_points],
    [switch_has_default] and [switch_has_final_fallthru]. *)
Fixpoint switch_loop (stmts : node) (up : ancestors)
    (l : list (option node)) (i : nat) (st : exit_set * bool * bool)
    {struct l} : result (exit_set * bool * bool) :=
  match l with
  | [] => Ok st
  | None :: _ => Raise AttributeError
  | Some (Node ck _ _ _ [case_val; case_stmt] as c) :: l' =>
      match case_stmt with
      | None => Raise AttributeError
      | Some case_stmt =>
          let '(exit_points, switch_has_default, _) := st in
          case_exit_points ← rec case_stmt ((c, 1) :: (stmts, i) :: up);
          switch_loop stmts up l' (S i)
            (exit_points ∪ case_exit_points,
             switch_has_default || bool_decide (ck = tok.DEFAULT),
             bool_decide (None ∈ case_exit_points))
      end
  | Some _ :: _ => Raise ValueError
  end.

(** The call on [node.kids[-1]]; [i] is the index of the head of [l]. *)
Fixpoint on_last_kid (n : node) (up : ancestors) (l : list (option node))
    (i : nat) {struct l} : result exit_set :=
  match l with
  | [] => Raise IndexError
  | [None] => Raise AttributeError
  | [Some kid] => rec kid ((n, i) :: up)
  | _ :: l' => on_last_kid n up l' (S i)
  end.
End loops.

Fixpoint _get_exit_points (n : node) (up : ancestors) {struct n}
  : result exit_set :=
  let 'Node k _ _ _ ks := n in
  match k with
  | tok.LC =>
      (* Only if the last child contains it *)
      block_loop _get_exit_points n up ks 0 {[None]}
  | tok.IF =>
      (* Only if both branches have an exit point *)
      match ks with
      | [cond_; if_; else_] =>
          match if_ with
          | None => Raise AttributeError
          | Some if_ =>
              exit_points ← _get_exit_points if_ ((n, 1) :: up);
              match else_ with
              | Some else_ =>
                  e ← _get_exit_points else_ ((n, 2) :: up);
                  Ok (exit_points ∪ e)
              | None => Ok exit_points
              end
          end
      | _ => Raise ValueError
      end
  | tok.SWITCH =>
      match ks with
      | [switch_var; switch_stmts] =>
          match switch_stmts with
          | None => Raise AttributeError
          | Some (Node _ _ _ _ cases as switch_stmts) =>
              match switch_loop _get_exit_points switch_stmts
                      ((n, 1) :: up) cases 0 ({[None]}, false, true)
              with
              | Raise e => Raise e
              | Ok (exit_points, switch_has_default,
                    switch_has_final_fallthru) =>
                  (* Correct the "None" exit point. *)
                  exit_points ← set_remove None exit_points;
                  (* Check if the switch contained any break *)
                  let exit_points :=
                    if decide (Some tok.BREAK ∈ exit_points)
                    then exit_points ∖ {[Some tok.BREAK]} ∪ {[None]}
                    else exit_points in
                  (* Check if the switch had a default case *)
                  let exit_points :=
                    if switch_has_default then exit_points
                    else exit_points ∪ {[None]} in
                  (* Check if the final case statement had a fallthru *)
                  let exit_points :=
                    if switch_has_final_fallthru then exit_points ∪ {[None]}
                    else exit_points in
                  Ok exit_points
              end
          end
      | _ => Raise ValueError
      end
  | tok.BREAK => Ok {[Some tok.BREAK]}
  | tok.WITH =>
      on_last_kid _get_exit_points n up ks 0
  | tok.RETURN => Ok {[Some tok.RETURN]}
  | tok.THROW => Ok {[Some tok.THROW]}
  | tok.TRY =>
      match ks with
      | [try_; catch_; finally_] =>
          match catch_ with
          | None => Raise AttributeError
          | Some (Node ck1 _ _ _ ks1 as c1) =>
          py_assert (bool_decide (ck1 = tok.RESERVED));;
          match ks1 with
          | [None] => Raise AttributeError
          | [Some (Node ck2 _ _ _ ks2 as c2)] =>
          py_assert (bool_decide (ck2 = tok.LEXICALSCOPE));;
          match ks2 with
          | [None] => Raise AttributeError
          | [Some (Node ck3 _ _ _ ks3 as c3)] =>
          py_assert (bool_decide (ck3 = tok.CATCH));;
          match ks3 with
          | [_; _; None] => Raise AttributeError
          | [_; _; Some catch_] =>
          py_assert (bool_decide (kind catch_ = tok.LC));;
          match try_ with
          | None => Raise AttributeError
          | Some try_ =>
              t ← _get_exit_points try_ ((n, 0) :: up);
              c ← _get_exit_points catch_
                    ((c3, 2) :: (c2, 0) :: (c1, 0)
                       :: (n, 1) :: up);
              let exit_points := t ∪ c in
              match finally_ with
              | Some finally_ =>
                  finally_exit_points ←
                    _get_exit_points finally_ ((n, 2) :: up);
                  if decide (None ∈ finally_exit_points) then
                    (* The finally statement does not add a missing exit
                       point. *)
                    Ok (exit_points ∪ finally_exit_points ∖ {[None]})
                  else
                    (* If the finally statement always returns, the other
                       exit points are irrelevant. *)
                    Ok (discard None exit_points ∪ finally_exit_points)
              | None => Ok exit_points
              end
          end
          | _ => Raise ValueError
          end
          | _ => Raise ValueError
          end
          | _ => Raise ValueError
          end
          end
      | _ => Raise ValueError
      end
  | _ => Ok {[None]}
  end.

(** [_get_exit_points] on a node object. *)
Definition exit_points_of (o : nodeobj) : result exit_set :=
  _get_exit_points (focus o) (above o).

(** ** The warning functions *)

(** [raise LintWarning, node]. With [None] for the node the statement
    builds the exception without an argument, and [LintWarning()] fails
    with [TypeError]: its [__init__] takes the node. *)
Definition raise_warning (target : option nodeobj) : result unit :=
  match target with
  | Some _ => Raise (LintWarning target)
  | None => Raise TypeError
  end.

(** Truth value of a double: every value but zero is true. *)
Definition float_true (d : float) : bool := negb (PrimFloat.eqb d 0%float).

(** Truth value of a string: every string but the empty one is true. *)
Definition str_true (s : string) : bool := negb (bool_decide (s = "")).

(** [s.endswith(t)] *)
Definition endswith (s t : string) : bool :=
  bool_decide (String.length t ≤ String.length s)%nat &&
  String.eqb
    (String.substring (String.length s - String.length t) (String.length t) s)
    t.

(** [for kid in node.kids] of [comparison_type_conv]; [i] is the index of
    the head of [l]. *)
Fixpoint comparison_type_conv_loop (l : list (option node)) (i : nat)
    (node : nodeobj) {struct l} : result unit :=
  match l with
  | [] => Ok tt
  | kid :: l' =>
      match kid_obj node i kid with
      | None => Raise AttributeError
      | Some kid =>
          let k := focus kid in
          if bool_decide (kind k = tok.PRIMARY) &&
             bool_decide (opcode k ∈ [op.NULL; op.TRUE; op.FALSE])
          then raise_warning (Some kid)
          else if bool_decide (kind k = tok.NUMBER) &&
                  negb (float_true (dval k))
          then raise_warning (Some kid)
          else if bool_decide (kind k = tok.STRING) &&
                  negb (str_true (atom k))
          then raise_warning (Some kid)
          else comparison_type_conv_loop l' (S i) node
      end
  end.

Definition comparison_type_conv (node : nodeobj) : result unit :=
  comparison_type_conv_loop (kids (focus node)) 0 node.

(** The [while tmp] loop of [ambiguous_else_stmt]; [tmp] is the node object
    of [tmp] and [up]. *)
Fixpoint ambiguous_else_walk (else_ : nodeobj) (tmp : node) (up : ancestors)
    {struct up} : result unit :=
  (* Curly braces always clarify if statements. *)
  if bool_decide (kind tmp = tok.LC) then Ok tt
  else
    match up with
    | [] => Raise AttributeError
    | (p, i) :: up' =>
        (* Else is only ambiguous in the first branch of an if statement. *)
        if bool_decide (kind p = tok.IF) && bool_decide (i = 1)
        then raise_warning (Some else_)
        else ambiguous_else_walk else_ p up'
    end.

Definition ambiguous_else_stmt (node : nodeobj) : result unit :=
  (* Only examine this node if it has an else statement. *)
  match kids (focus node) with
  | [condition; if_; else_] =>
      match kid_obj node 2 else_ with
      | None => Ok tt
      | Some else_ => ambiguous_else_walk else_ (focus node) (above node)
      end
  | _ => Raise ValueError
  end.

Definition missing_break (node : nodeobj) : result unit :=
  match parent node, node_index node with
  | Some p, Some i =>
      (* The last item is handled separately *)
      if bool_decide (Z.of_nat i = Z.of_nat (length (kids (focus p))) - 1)%Z
      then Ok tt
      else
        match kids (focus node) !! 1 with
        | None => Raise IndexError
        | Some None => Raise AttributeError
        | Some (Some case_contents) =>
            py_assert (bool_decide (kind case_contents = tok.LC));;
            (* Ignore empty case statements *)
            if bool_decide (kids case_contents = []) then Ok tt
            else
              e ← _get_exit_points case_contents
                    ((focus node, 1) :: above node);
              if decide (None ∈ e) then
                (* Show the warning on the *next* node. *)
                match kids (focus p) !! S i with
                | None => Raise IndexError
                | Some next => raise_warning (kid_obj p (S i) next)
                end
              else Ok tt
        end
  | _, _ => Raise AttributeError
  end.

Definition missing_break_for_last_case (node : nodeobj) : result unit :=
  match parent node, node_index node with
  | Some p, Some i =>
      if bool_decide (Z.of_nat i < Z.of_nat (length (kids (focus p))) - 1)%Z
      then Ok tt
      else
        match kids (focus node) !! 1 with
        | None => Raise IndexError
        | Some None => Raise AttributeError
        | Some (Some case_contents) =>
            py_assert (bool_decide (kind case_contents = tok.LC));;
            e ← _get_exit_points case_contents
                  ((focus node, 1) :: above node);
            if decide (None ∈ e) then raise_warning (Some node) else Ok tt
        end
  | _, _ => Raise AttributeError
  end.

Definition trailing_decimal_point (node : nodeobj) : result unit :=
  match parent node with
  | None => Raise AttributeError
  | Some p =>
      if bool_decide (kind (focus p) = tok.DOT)
      then raise_warning (Some node)
      else if endswith (atom (focus node)) "."
      then raise_warning (Some node)
      else Ok tt
  end.

(** ** More warning functions *)

(** Returns [None] if this is not one of the branches in a [for]. *)
Definition _get_branch_in_for (node : nodeobj) : result (option nat) :=
  match parent node with
  | None => Ok None
  | Some p =>
      if bool_decide (kind (focus p) = tok.RESERVED) then
        match parent p with
        | None => Raise AttributeError
        | Some g =>
            if bool_decide (kind (focus g) = tok.FOR)
            then Ok (node_index node)
            else Ok None
        end
      else Ok None
  end.

Definition default_not_at_end (node : nodeobj) : result unit :=
  match parent node, node_index node with
  | Some p, Some i =>
      let siblings := kids (focus p) in
      if bool_decide (Z.of_nat i ≠ Z.of_nat (length siblings) - 1)%Z then
        match siblings !! S i with
        | None => Raise IndexError
        | Some next => raise_warning (kid_obj p (S i) next)
        end
      else Ok tt
  | _, _ => Raise AttributeError
  end.

(** [for case in cases.kids] of [missing_default_case]. *)
Fixpoint missing_default_case_loop (l : list (option node))
    (node : nodeobj) {struct l} : result unit :=
  match l with
  | [] => raise_warning (Some node)
  | None :: _ => Raise AttributeError
  | Some case :: l' =>
      if bool_decide (kind case = tok.DEFAULT) then Ok tt
      else missing_default_case_loop l' node
  end.

Definition missing_default_case (node : nodeobj) : result unit :=
  match kids (focus node) with
  | [value; cases] =>
      match cases with
      | None => Raise AttributeError
      | Some cases => missing_default_case_loop (kids cases) node
      end
  | _ => Raise ValueError
  end.

Definition block_without_braces (node : nodeobj) : result unit :=
  match kids (focus node) !! 1 with
  | None => Raise IndexError
  | Some None => Raise AttributeError
  | Some (Some body) =>
      if bool_decide (kind body ≠ tok.LC)
      then raise_warning (kid_obj node 1 (Some body))
      else Ok tt
  end.

Definition _block_nodes : list tok.t :=
  [tok.IF; tok.WHILE; tok.DO; tok.FOR; tok.WITH].

Definition ambiguous_nested_stmt (node : nodeobj) : result unit :=
  match parent node, node_index node with
  | Some p, Some i =>
      (* Ignore "else if" *)
      if bool_decide (kind (focus node) = tok.IF) && bool_decide (i = 2) &&
         bool_decide (kind (focus p) = tok.IF)
      then Ok tt
      (* If the parent is a block, it means a block statement
         was inside a block statement without clarifying curlies.
         (Otherwise, the node type would be tok.LC.) *)
      else if bool_decide (kind (focus p) ∈ _block_nodes)
      then raise_warning (Some node)
      else Ok tt
  | _, _ => Raise AttributeError
  end.

(** The [while] loop of [inc_dec_within_stmt]: from the node object of
    [tmp] and [up] to the first one whose parent is not a comma. *)
Fixpoint above_commas (tmp : node) (up : ancestors) {struct up} : nodeobj :=
  match up with
  | (p, i) :: up' =>
      if bool_decide (kind p = tok.COMMA) then above_commas p up'
      else NodeObj tmp up
  | [] => NodeObj tmp []
  end.

Definition inc_dec_within_stmt (node : nodeobj) : result unit :=
  match parent node with
  | None => Raise AttributeError
  | Some p =>
      if bool_decide (kind (focus p) = tok.SEMI) then Ok tt
      else
        (* Allow within the third part of the "for" *)
        let tmp := above_commas (focus node) (above node) in
        match above tmp with
        | (p, 2) :: up =>
            if bool_decide (kind p = tok.RESERVED) then
              match up with
              | [] => Raise AttributeError
              | (g, _) :: _ =>
                  if bool_decide (kind g = tok.FOR) then Ok tt
                  else raise_warning (Some node)
              end
            else raise_warning (Some node)
        | _ => raise_warning (Some node)
        end
  end.

Definition comma_separated_stmts (node : nodeobj) : result unit :=
  (* Allow within the first and third part of "for(;;)" *)
  branch ← _get_branch_in_for node;
  if bool_decide (branch ∈ [Some 0; Some 2]) then Ok tt
  else
    match parent node with
    | None => Raise AttributeError
    | Some p =>
        (* This is an array *)
        if bool_decide (kind (focus p) = tok.RB) then Ok tt
        else raise_warning (Some node)
    end.

(** [empty_statement_], on blocks. *)
Definition empty_statement_ (node : nodeobj) : result unit :=
  if bool_decide (kids (focus node) ≠ []) then Ok tt
  else
    (* Ignore the outermost block. *)
    match parent node with
    | None => Ok tt
    | Some p =>
        (* Some empty blocks are meaningful. *)
        if bool_decide (kind (focus p) ∈
                          [tok.CATCH; tok.CASE; tok.DEFAULT; tok.SWITCH;
                           tok.FUNCTION])
        then Ok tt
        else raise_warning (Some node)
    end.

Definition unreachable_code (node : nodeobj) : result unit :=
  match parent node, node_index node with
  | Some p, Some i =>
      if bool_decide (kind (focus p) = tok.LC) &&
         bool_decide (Z.of_nat i ≠ Z.of_nat (length (kids (focus p))) - 1)%Z
      then
        match kids (focus p) !! S i with
        | None => Raise IndexError
        | Some next => raise_warning (kid_obj p (S i) next)
        end
      else Ok tt
  | _, _ => Raise AttributeError
  end.

(** [meaningless_block__], on blocks. *)
Definition meaningless_block__ (node : nodeobj) : result unit :=
  match parent node with
  | Some p =>
      if bool_decide (kind (focus p) = tok.LC)
      then raise_warning (Some node)
      else Ok tt
  | None => Ok tt
  end.

(** ** The traversal

    Modelled from the spec: the traversal that calls the warning functions
    is in the module [visitation] and its caller, which are not part of
    warnings.py. A node is visited before its kids, the kids from left to
    right; a warning function is called on a visited node once for each of
    its keys that the node matches, a [LintWarning] is collected as a
    finding, and any other exception ends the pass. *)

(** A key of [lookfor]: [tok.KIND] or [(tok.KIND, op.OPCODE)]. *)
Inductive trigger :=
  | Kind (k : tok.t)
  | KindOp (k : tok.t) (o : op.t).

#[global] Instance trigger_eq_dec : EqDecision trigger.
Proof. solve_decision. Defined.

#[global] Instance trigger_countable : Countable trigger :=
  inj_countable'
    (λ key, match key with
            | Kind k => inl k
            | KindOp k o => inr (k, o)
            end)
    (λ x, match x with
          | inl k => Kind k
          | inr (k, o) => KindOp k o
          end)
    (λ key, match key with Kind _ | KindOp _ _ => eq_refl end).

Definition triggers (key : trigger) (n : node) : bool :=
  match key with
  | Kind k => bool_decide (kind n = k)
  | KindOp k o => bool_decide (kind n = k) && bool_decide (opcode n = o)
  end.

Fixpoint preorder (n : node) (up : ancestors) {struct n} : list nodeobj :=
  let 'Node _ _ _ _ ks := n in
  NodeObj n up ::
  (fix below (l : list (option node)) (i : nat) {struct l} : list nodeobj :=
     match l with
     | [] => []
     | None :: l' => below l' (S i)
     | Some kid :: l' => preorder kid ((n, i) :: up) ++ below l' (S i)
     end) ks 0.

Fixpoint collect (check : nodeobj → result unit) (calls : list nodeobj)
  : result (list (option nodeobj)) :=
  match calls with
  | [] => Ok []
  | o :: calls' =>
      match check o with
      | Ok _ => collect check calls'
      | Raise (LintWarning target) =>
          found ← collect check calls'; Ok (target :: found)
      | Raise e => Raise e
      end
  end.

(** The findings of one warning function, registered under [keys], on the
    tree [root]. *)
Definition findings (keys : list trigger) (check : nodeobj → result unit)
    (root : node) : result (list (option nodeobj)) :=
  collect check
    (o ← preorder root [];
     _ ← filter (λ key, triggers key (focus o) = true) keys; [o]).

(** ** The catalog of warnings and the registration of the functions *)

(** A double quote, for the messages that contain one. *)
Definition dq : string := String (Ascii.ascii_of_nat 34) "".

Definition warnings : gmap string string := list_to_map [
  ("comparison_type_conv", "comparisons against null, 0, true, false, or an empty string allowing implicit type conversion (use === or !==)");
  ("default_not_at_end", "the default case is not at the end of the switch statement");
  ("duplicate_case_in_switch", "duplicate case in switch statement");
  ("missing_default_case", "missing default case in switch statement");
  ("with_statement", "with statement hides undeclared variables; use temporary variable instead");
  ("useless_comparison", "useless comparison; comparing identical expressions");
  ("use_of_label", "use of label");
  ("misplaced_regex", "regular expressions should be preceded by a left parenthesis, assignment, colon, or comma");
  ("assign_to_function_call", "assignment to a function call");
  ("ambiguous_else_stmt", "the else statement could be matched with one of multiple if statements (use curly braces to indicate intent");
  ("block_without_braces", "block statement without curly braces");
  ("ambiguous_nested_stmt", "block statements containing block statements should use curly braces to resolve ambiguity");
  ("inc_dec_within_stmt", "increment (++) and decrement (--) operators used as part of greater statement");
  ("comma_separated_stmts", "multiple statements separated by commas (use semicolons?)");
  ("empty_statement", "empty statement or extra semicolon");
  ("missing_break", "missing break statement");
  ("missing_break_for_last_case", "missing break statement for last case in switch");
  ("multiple_plus_minus", "unknown order of operations for successive plus (e.g. x+++y) or minus (e.g. x---y) signs");
  ("useless_assign", "useless assignment");
  ("unreachable_code", "unreachable code");
  ("meaningless_block", "meaningless block; curly braces have no impact");
  ("useless_void", "use of the void type may be unnecessary (void is always undefined)");
  ("parseint_missing_radix", "parseInt missing radix parameter");
  ("leading_decimal_point", "leading decimal point may indicate a number or an object member");
  ("trailing_decimal_point", "trailing decimal point may indicate a number or an object member");
  ("octal_number", "leading zeros make an octal number");
  ("trailing_comma_in_array", "extra comma is not recommended in array initializers");
  ("useless_quotes", "the quotation marks are unnecessary");
  ("mismatch_ctrl_comments", "mismatched control comment; " +:+ dq +:+ "ignore" +:+ dq +:+ " and " +:+ dq +:+ "end" +:+ dq +:+ " control comments must have a one-to-one correspondence");
  ("redeclared_var", "redeclaration of {0} {1}");
  ("undeclared_identifier", "undeclared identifier: {0}");
  ("unreferenced_identifier", "identifier is declared but never referenced: {0}");
  ("jsl_cc_not_understood", "couldn't understand control comment using /*jsl:keyword*/ syntax");
  ("nested_comment", "nested comment");
  ("legacy_cc_not_understood", "couldn't understand control comment using /*@keyword@*/ syntax");
  ("var_hides_arg", "variable {0} hides argument");
  ("duplicate_formal", "TODO");
  ("missing_semicolon", "missing semicolon");
  ("ambiguous_newline", "unexpected end of line; it is ambiguous whether these lines are part of the same statement");
  ("missing_option_explicit", "the " +:+ dq +:+ "option explicit" +:+ dq +:+ " control comment is missing");
  ("partial_option_explicit", "the " +:+ dq +:+ "option explicit" +:+ dq +:+ " control comment, if used, must be in the first script tag");
  ("dup_option_explicit", "duplicate " +:+ dq +:+ "option explicit" +:+ dq +:+ " control comment");
  ("invalid_fallthru", "unexpected " +:+ dq +:+ "fallthru" +:+ dq +:+ " control comment");
  ("invalid_pass", "unexpected " +:+ dq +:+ "pass" +:+ dq +:+ " control comment")
].

(** [s.rstrip('_')] *)
Fixpoint rstrip_underscores (s : string) : string :=
  match s with
  | EmptyString => EmptyString
  | String c s' =>
      match rstrip_underscores s' with
      | EmptyString =>
          if Ascii.eqb c "_"%char then EmptyString else String c EmptyString
      | r => String c r
      end
  end.

(** [fn.warning]: the identifier under which the function [func_name]
    reports. *)
Definition warning_of (func_name : string) : string :=
  rstrip_underscores func_name.

(** The decorator [lookfor] with the keys [args] on the function named
    [fn], from the list [_visitors] to the list after the decoration. A
    function is entered under its name. *)
Definition lookfor (args : list trigger) (fn : string)
    (_visitors : list (trigger * string))
  : result (list (trigger * string)) :=
  py_assert (bool_decide (warning_of fn ∈ dom warnings));;
  Ok (_visitors ++ ((λ arg, (arg, fn)) <$> args)).

(** The decorations of the module, in the order of the source. *)
Definition decorations : list (list trigger * string) := [
  ([KindOp tok.EQOP op.EQ], "comparison_type_conv");
  ([Kind tok.DEFAULT], "default_not_at_end");
  ([Kind tok.CASE], "duplicate_case_in_switch");
  ([Kind tok.SWITCH], "missing_default_case");
  ([Kind tok.WITH], "with_statement");
  ([Kind tok.EQOP; Kind tok.RELOP], "useless_comparison");
  ([KindOp tok.COLON op.NAME], "use_of_label");
  ([KindOp tok.OBJECT op.REGEXP], "misplaced_regex");
  ([Kind tok.ASSIGN], "assign_to_function_call");
  ([Kind tok.IF], "ambiguous_else_stmt");
  ([Kind tok.IF; Kind tok.WHILE; Kind tok.DO; Kind tok.FOR; Kind tok.WITH],
   "block_without_braces");
  ([Kind tok.IF; Kind tok.WHILE; Kind tok.DO; Kind tok.FOR; Kind tok.WITH],
   "ambiguous_nested_stmt");
  ([Kind tok.INC; Kind tok.DEC], "inc_dec_within_stmt");
  ([Kind tok.COMMA], "comma_separated_stmts");
  ([Kind tok.SEMI], "empty_statement");
  ([Kind tok.LC], "empty_statement_");
  ([Kind tok.CASE; Kind tok.DEFAULT], "missing_break");
  ([Kind tok.CASE; Kind tok.DEFAULT], "missing_break_for_last_case");
  ([Kind tok.INC], "multiple_plus_minus");
  ([Kind tok.DEC], "multiple_plus_minus_");
  ([KindOp tok.NAME op.SETNAME], "useless_assign");
  ([Kind tok.BREAK; Kind tok.CONTINUE; Kind tok.RETURN; Kind tok.THROW],
   "unreachable_code");
  ([Kind tok.LC], "meaningless_block__");
  ([KindOp tok.UNARYOP op.VOID], "useless_void");
  ([KindOp tok.LP op.CALL], "parseint_missing_radix");
  ([Kind tok.NUMBER], "leading_decimal_point");
  ([Kind tok.NUMBER], "trailing_decimal_point");
  ([Kind tok.NUMBER], "octal_number");
  ([Kind tok.RB], "trailing_comma_in_array");
  ([Kind tok.STRING], "useless_quotes");
  ([], "mismatch_ctrl_comments");
  ([], "redeclared_var");
  ([], "undeclared_identifier");
  ([], "jsl_cc_not_understood");
  ([], "nested_comment");
  ([], "legacy_cc_not_understood");
  ([], "var_hides_arg");
  ([], "duplicate_formal");
  ([], "missing_semicolon");
  ([], "ambiguous_newline");
  ([], "missing_option_explicit");
  ([], "partial_option_explicit");
  ([], "dup_option_explicit")
].

(** Loading a module that decorates the functions of [decls] in turn. *)
Fixpoint load (decls : list (list trigger * string))
    (_visitors : list (trigger * string))
  : result (list (trigger * string)) :=
  match decls with
  | [] => Ok _visitors
  | (args, fn) :: decls' => _visitors ← lookfor args fn _visitors;
                            load decls' _visitors
  end.

(** The table from a key to the functions registered under it. *)
Definition make_visitors (_visitors : list (trigger * string))
  : gmap trigger (list string) :=
  foldl (λ visitors '(kind, func),
           match visitors !! kind with
           | Some funcs => <[kind := funcs ++ [func]]> visitors
           | None => <[kind := [func]]> visitors
           end) ∅ _visitors.

(** ** Trees of some scripts

    The trees that the parser builds for the scripts of the examples
    below; the top of a script is a block. *)

Definition js_node (k : tok.t) (ks : list (option node)) : node :=
  Node k op.NOP "" 0%float ks.

Definition js_name (x : string) : node := Node tok.NAME op.NAME x 0%float [].
Definition js_number (text : string) (value : float) : node :=
  Node tok.NUMBER op.NOP text value [].
Definition js_string (text : string) : node :=
  Node tok.STRING op.NOP text 0%float [].
Definition js_null : node := Node tok.PRIMARY op.NULL "" 0%float [].
Definition js_call (f : string) : node :=
  Node tok.LP op.CALL "" 0%float [Some (js_name f)].
Definition js_expr (e : node) : node := js_node tok.SEMI [Some e].
Definition js_block (stmts : list node) : node :=
  js_node tok.LC (Some <$> stmts).
Definition js_break : node := js_node tok.BREAK [].
Definition js_return : node := js_node tok.RETURN [None].
Definition js_throw (e : node) : node := js_node tok.THROW [Some e].
Definition js_if (c t : node) (e : option node) : node :=
  js_node tok.IF [Some c; Some t; e].
Definition js_eq (a b : node) : node :=
  Node tok.EQOP op.EQ "" 0%float [Some a; Some b].
Definition js_dot (base : node) (property : string) : node :=
  Node tok.DOT op.GETPROP property 0%float [Some base].
Definition js_case (v : node) (stmts : list node) : node :=
  js_node tok.CASE [Some v; Some (js_block stmts)].
Definition js_default (stmts : list node) : node :=
  js_node tok.DEFAULT [None; Some (js_block stmts)].
Definition js_switch (x : node) (cases : list node) : node :=
  js_node tok.SWITCH [Some x; Some (js_block cases)].
Definition js_try (t : list node) (e : string) (c : list node)
    (f : option node) : node :=
  js_node tok.TRY
    [Some (js_block t);
     Some (js_node tok.RESERVED
             [Some (js_node tok.LEXICALSCOPE
                      [Some (js_node tok.CATCH
                               [Some (js_name e); None;
                                Some (js_block c)])])]);
     f].

(** [switch (x) { case 1: case 2: b(); break; }] *)
Definition empty_case_script : node :=
  js_block
    [js_switch (js_name "x")
       [js_case (js_number "1" 1%float) [];
        js_case (js_number "2" 2%float) [js_expr (js_call "b"); js_break]]].

(** [switch (x) { case 1: a(); case 2: b(); break; }] *)
Definition fallthru_script : node :=
  js_block
    [js_switch (js_name "x")
       [js_case (js_number "1" 1%float) [js_expr (js_call "a")];
        js_case (js_number "2" 2%float) [js_expr (js_call "b"); js_break]]].

(** [null == 0] *)
Definition null_equals_zero : node :=
  js_block [js_expr (js_eq js_null (js_number "0" 0%float))].

(** [if (a) if (b) f(); else g();] *)
Definition dangling_else_script : node :=
  js_block
    [js_if (js_name "a")
       (js_if (js_name "b") (js_expr (js_call "f"))
          (Some (js_expr (js_call "g"))))
       None].

(** [if (a) { if (b) f(); } else g();] *)
Definition braced_else_script : node :=
  js_block
    [js_if (js_name "a")
       (js_block [js_if (js_name "b") (js_expr (js_call "f")) None])
       (Some (js_expr (js_call "g")))].

(** ** Notions that the properties are stated with *)

(** [deep P n]: [P] holds of [n] and of every node below it. *)
#[local] Unset Elimination Schemes.
Inductive deep (P : node → Prop) : node → Prop :=
  deep_node k o a d ks :
    P (Node k o a d ks) →
    Forall (λ x, ∀ m, x = Some m → deep P m) ks →
    deep P (Node k o a d ks).
#[local] Set Elimination Schemes.

(** [rec] gives the same result on the statement of the slot [x] under any
    two ancestor chains. *)
Definition up_irrelevant (rec : node → ancestors → result exit_set)
    (x : option node) : Prop :=
  ∀ m, x = Some m → ∀ up up', rec m up = rec m up'.

(** The exit points of the statement in a slot of a block; an elided slot
    has none. *)
Definition slot_exit_points (kid : option node) : result exit_set :=
  match kid with
  | None => Ok ∅
  | Some kid => _get_exit_points kid []
  end.

(** No [break], [return] or [throw] occurs in the tree. *)
Fixpoint jump_free (n : node) : bool :=
  let 'Node k _ _ _ ks := n in
  negb (bool_decide (k ∈ [tok.BREAK; tok.RETURN; tok.THROW])) &&
  (fix all (l : list (option node)) : bool :=
     match l with
     | [] => true
     | None :: l' => all l'
     | Some kid :: l' => jump_free kid && all l'
     end) ks.

Definition slot_jump_free (kid : option node) : bool :=
  from_option jump_free true kid.

(** Every exit-point set that [_get_exit_points] returns on the statement
    of the slot [x] has no member but [None]. *)
Definition falls_through (x : option node) : Prop :=
  ∀ m, x = Some m →
    ∀ up E, _get_exit_points m up = Ok E → E ⊆ {[None]}.

(** The body of the case in the slot [c] has the exit points [E]. *)
Definition case_exit_points (c : option node) (E : exit_set) : Prop :=
  ∃ k o a d v body,
    c = Some (Node k o a d [v; Some body]) ∧ _get_exit_points body [] = Ok E.

(** The case in the slot [c] is the [default] case. *)
Definition is_default (c : option node) : bool :=
  bool_decide (kind <$> c = Some tok.DEFAULT).

(** The node object reached from [o] along the slots [path]. *)
Fixpoint locate (o : nodeobj) (path : list nat) : option nodeobj :=
  match path with
  | [] => Some o
  | i :: path' =>
      kid ← kids (focus o) !! i; o' ← kid_obj o i kid; locate o' path'
  end.

(** A [null], [true] or [false] literal, a numeric literal of value zero
    or an empty string literal. *)
Definition converting_literal (n : node) : bool :=
  bool_decide (kind n = tok.PRIMARY ∧
               (opcode n = op.NULL ∨ opcode n = op.TRUE ∨ opcode n = op.FALSE))
  || bool_decide (kind n = tok.NUMBER) && PrimFloat.eqb (dval n) 0%float
  || bool_decide (kind n = tok.STRING ∧ atom n = "").

(** The nodes that the loop of [ambiguous_else_stmt] goes through from the
    node object of [tmp] and [up]: the node and its ancestors, nearest
    first. *)
Definition chain (tmp : node) (up : ancestors) : list node :=
  tmp :: (fst <$> up).

(** The node whose parent and index are [entry] is the first branch of an
    [if]. *)
Definition in_then_position (entry : node * nat) : Prop :=
  kind entry.1 = tok.IF ∧ entry.2 = 1.

(** The entries of [_visitors] that the decorations [decls] make. *)
Definition entries (decls : list (list trigger * string))
  : list (trigger * string) :=
  d ← decls; (λ arg, (arg, d.2)) <$> d.1.

(** The members that an exit-point set can have. *)
Definition exit_reasons : exit_set :=
  {[None; Some tok.BREAK; Some tok.RETURN; Some tok.THROW]}.

(** The exceptions that stand for a tree of an unexpected shape. *)
Definition shape_error (e : exn) : Prop :=
  e = AttributeError ∨ e = ValueError ∨ e = IndexError ∨ e = AssertionError.

(** A result of the analysis is a set of exit reasons or a shape error. *)
Definition safe (r : result exit_set) : Prop :=
  match r with
  | Ok E => E ⊆ exit_reasons
  | Raise e => shape_error e
  end.



(** The tree with the kinds and the slots of [n], and none of its opcodes,
    texts and values. *)
Fixpoint skeleton (n : node) : node :=
  let 'Node k _ _ _ ks := n in
  Node k op.NOP "" 0%float
    ((fix slots (l : list (option node)) : list (option node) :=
        match l with
        | [] => []
        | None :: l' => None :: slots l'
        | Some kid :: l' => Some (skeleton kid) :: slots l'
        end) ks).

(** The analysis of the statement of the slot [x] and of its skeleton
    give the same result. *)
Definition skeleton_suffices (x : option node) : Prop :=
  ∀ m, x = Some m →
    ∀ up up', _get_exit_points (skeleton m) up = _get_exit_points m up'.

(** The string of [k] underscores. *)
Fixpoint underscores (k : nat) : string :=
  match k with
  | 0 => ""
  | S k => String "_"%char (underscores k)
  end.

(** The last character of [s] is an underscore. *)
Definition ends_with_underscore (s : string) : Prop :=
  ∃ t, s = t +:+ "_".

(** The functions entered in [_visitors] under [key], in order. *)
Definition registered_under (key : trigger)
    (_visitors : list (trigger * string)) : list string :=
  (filter (λ e, e.1 = key) _visitors).*2.

(** The slots that [_get_exit_points] reads at the node [n] are as it
    expects them: an [if] has three slots and a first branch, a [switch]
    has two slots and cases with two slots and a body, a [with] has a
    last slot, and a [try] has three slots, a [try] block and a [catch]
    clause under its two wrappers, with a block. *)
Definition local_shape (n : node) : bool :=
  match kind n with
  | tok.IF =>
      match kids n with
      | [_; Some _; _] => true
      | _ => false
      end
  | tok.SWITCH =>
      match kids n with
      | [_; Some stmts] =>
          forallb (λ c, match c with
                        | Some c => match kids c with
                                    | [_; Some _] => true
                                    | _ => false
                                    end
                        | None => false
                        end) (kids stmts)
      | _ => false
      end
  | tok.WITH =>
      match last (kids n) with
      | Some (Some _) => true
      | _ => false
      end
  | tok.TRY =>
      match kids n with
      | [Some _; Some c1; _] =>
          bool_decide (kind c1 = tok.RESERVED) &&
          match kids c1 with
          | [Some c2] =>
              bool_decide (kind c2 = tok.LEXICALSCOPE) &&
              match kids c2 with
              | [Some c3] =>
                  bool_decide (kind c3 = tok.CATCH) &&
                  match kids c3 with
                  | [_; _; Some catch_] => bool_decide (kind catch_ = tok.LC)
                  | _ => false
                  end
              | _ => false
              end
          | _ => false
          end
      | _ => false
      end
  | _ => true
  end.

(** Every node of the tree has the local shape. *)
Fixpoint well_shaped (n : node) : bool :=
  local_shape n &&
  let 'Node _ _ _ _ ks := n in
  (fix all (l : list (option node)) : bool :=
     match l with
     | [] => true
     | None :: l' => all l'
     | Some kid :: l' => well_shaped kid && all l'
     end) ks.

(** The analysis returns a set on the statement of the slot [x]. *)
Definition returns (x : option node) : Prop :=
  ∀ m, x = Some m → ∀ up, ∃ E, _get_exit_points m up = Ok E.

(** * Properties *)

(** ** The definitions on small inputs *)

Example rstrip_underscores_examples :
  rstrip_underscores "meaningless_block__" = "meaningless_block" ∧
  rstrip_underscores "empty_statement_" = "empty_statement" ∧
  rstrip_underscores "use_of_label" = "use_of_label" ∧
  rstrip_underscores "__" = "".
Proof. repeat split. Qed.

Example endswith_examples :
  endswith "1." "." = true ∧ endswith "1.5" "." = false ∧
  endswith "" "." = false ∧ endswith "." "." = true.
Proof. repeat split. Qed.

Example float_true_examples :
  float_true 0%float = false ∧ float_true (PrimFloat.opp 0%float) = false ∧
  float_true 0.5%float = true ∧ float_true PrimFloat.nan = true.
Proof. repeat split. Qed.

Example _get_exit_points_examples :
  _get_exit_points (js_expr (js_call "f")) [] = Ok {[None]} ∧
  _get_exit_points (js_node tok.CONTINUE []) [] = Ok {[None]} ∧
  _get_exit_points (js_block [js_break; js_expr (js_call "f")]) [] =
    Ok {[Some tok.BREAK; None]} ∧
  _get_exit_points (js_if (js_name "c") js_return None) [] =
    Ok {[Some tok.RETURN]} ∧
  _get_exit_points (js_node tok.IF [Some (js_name "c"); Some js_return]) [] =
    Raise ValueError ∧
  _get_exit_points (js_node tok.TRY [Some (js_block []); None; None]) [] =
    Raise AttributeError.
Proof. repeat split; vm_compute; reflexivity. Qed.

Example make_visitors_examples :
  make_visitors (entries decorations) !! Kind tok.NUMBER =
    Some ["leading_decimal_point"; "trailing_decimal_point"; "octal_number"] ∧
  make_visitors (entries decorations) !! KindOp tok.EQOP op.EQ =
    Some ["comparison_type_conv"] ∧
  make_visitors (entries decorations) !! Kind tok.TRY = None.
Proof. repeat split; vm_compute; reflexivity. Qed.

(** ** Induction on syntax trees *)

Lemma deep_here P n : deep P n → P n.
Proof. by destruct 1. Qed.

Lemma deep_kids P n :
  deep P n → Forall (λ x, ∀ m, x = Some m → deep P m) (kids n).
Proof. by destruct 1. Qed.

Lemma deep_intro (P : node → Prop) :
  (∀ k o a d ks,
     Forall (λ x, ∀ m, x = Some m → deep P m) ks → P (Node k o a d ks)) →
  ∀ n, deep P n.
Proof.
  intros step. fix IH 1. intros [k o a d ks].
  assert (Forall (λ x, ∀ m, x = Some m → deep P m) ks) as Hks.
  { induction ks as [|[x|] ks IHks]; constructor.
    - intros m [= <-]. apply IH.
    - exact IHks.
    - intros m [=].
    - exact IHks. }
  constructor; [apply step|]; exact Hks.
Qed.

Lemma node_deep_ind (P : node → Prop) :
  (∀ k o a d ks,
     Forall (λ x, ∀ m, x = Some m → deep P m) ks → P (Node k o a d ks)) →
  ∀ n, P n.
Proof. intros step n. by apply deep_here, deep_intro. Qed.

(** ** The analysis does not look at the ancestors *)

Lemma block_loop_up rec l :
  Forall (up_irrelevant rec) l →
  ∀ n n' up up' i i' e,
    block_loop rec n up l i e = block_loop rec n' up' l i' e.
Proof.
  induction 1 as [|[kid|] l Hkid _ IH]; intros n n' up up' i i' e;
    simpl; [done| |by apply IH].
  rewrite (Hkid kid eq_refl ((n, i) :: up) ((n', i') :: up')).
  destruct (rec kid _); simpl; [by apply IH|done].
Qed.

Lemma switch_loop_up rec l :
  Forall (λ c, ∀ m, c = Some m → Forall (up_irrelevant rec) (kids m)) l →
  ∀ s s' up up' i i' st,
    switch_loop rec s up l i st = switch_loop rec s' up' l i' st.
Proof.
  induction 1 as [|[c|] l Hc _ IH]; intros s s' up up' i i' st;
    simpl; [done| |done].
  specialize (Hc c eq_refl).
  destruct c as [ck co ca cd [|v [|[body|] [|]]]]; simpl in *; try done.
  destruct st as [[e dflt] fallthru].
  apply Forall_cons_1 in Hc as [_ [Hbody _]%Forall_cons_1].
  rewrite (Hbody body eq_refl _ ((Node ck co ca cd [v; Some body], 1)
                                   :: (s', i') :: up')).
  destruct (rec body _); simpl; [by apply IH|done].
Qed.

Lemma on_last_kid_up rec l :
  Forall (up_irrelevant rec) l →
  ∀ n n' up up' i i',
    on_last_kid rec n up l i = on_last_kid rec n' up' l i'.
Proof.
  induction 1 as [|kid l Hkid Hl IH]; intros n n' up up' i i'; [done|].
  destruct l as [|kid' l].
  - destruct kid as [kid|]; simpl; [|done]. by apply Hkid.
  - destruct kid; apply IH.
Qed.
Lemma deep_kid P n m : deep P n → Some m ∈ kids n → deep P m.
Proof.
  intros Hn Hm. apply deep_kids in Hn. rewrite Forall_forall in Hn.
  by apply (Hn _ Hm).
Qed.

Lemma _get_exit_points_up n :
  ∀ up up', _get_exit_points n up = _get_exit_points n up'.
Proof.
  induction n as [k o a d ks IH] using node_deep_ind.
  set (P := λ n, ∀ up up', _get_exit_points n up = _get_exit_points n up')
    in IH.
  assert (∀ m, Some m ∈ ks → deep P m) as Hd.
  { intros m Hm. rewrite Forall_forall in IH. by apply (IH _ Hm). }
  assert (∀ n, deep P n → Forall (up_irrelevant _get_exit_points) (kids n))
    as Hirr.
  { intros n Hn. rewrite Forall_forall. intros x Hx m -> up up'.
    by apply (deep_here P m), (deep_kid P n). }
  clear IH. intros up up'. destruct k; try done.
  - (* tok.LC *)
    apply block_loop_up.
    rewrite Forall_forall. intros x Hx m -> u u'.
    by apply (deep_here P m), Hd.
  - (* tok.IF *)
    destruct ks as [|c [|[t|] [|e [|]]]]; try done. simpl.
    rewrite (deep_here P t (Hd t ltac:(set_solver)) _
               ((Node tok.IF o a d [c; Some t; e], 1) :: up')).
    destruct (_get_exit_points t _); simpl; [|done].
    destruct e as [e|]; [|done].
    by rewrite (deep_here P e (Hd e ltac:(set_solver)) _
                  ((Node tok.IF o a d [c; Some t; Some e], 2) :: up')).
  - (* tok.SWITCH *)
    destruct ks as [|v [|[[sk so sa sd cases]|] [|]]]; try done. simpl.
    rewrite (switch_loop_up _get_exit_points cases) with
      (s' := Node sk so sa sd cases)
      (up' := (Node tok.SWITCH o a d [v; Some (Node sk so sa sd cases)], 1)
                :: up') (i' := 0); [done|].
    rewrite Forall_forall. intros c Hc m ->. apply Hirr.
    apply (deep_kid P (Node sk so sa sd cases)); [|done].
    apply Hd. set_solver.
  - (* tok.WITH *)
    apply on_last_kid_up.
    rewrite Forall_forall. intros x Hx m -> u u'.
    by apply (deep_here P m), Hd.
  - (* tok.TRY *)
    destruct ks as [|t [|[[ck1 o1 a1 d1 ks1]|] [|f [|]]]]; try done. simpl.
    destruct (bool_decide (ck1 = tok.RESERVED)); simpl; [|done].
    destruct ks1 as [|[[ck2 o2 a2 d2 ks2]|] [|]]; try done. simpl.
    destruct (bool_decide (ck2 = tok.LEXICALSCOPE)); simpl; [|done].
    destruct ks2 as [|[[ck3 o3 a3 d3 ks3]|] [|]]; try done. simpl.
    destruct (bool_decide (ck3 = tok.CATCH)); simpl; [|done].
    destruct ks3 as [|x [|y [|[cb|] [|]]]]; try done. simpl.
    destruct (bool_decide (kind cb = tok.LC)); simpl; [|done].
    destruct t as [t|]; [|done].
    set (c3 := Node ck3 o3 a3 d3 [x; y; Some cb]).
    set (c2 := Node ck2 o2 a2 d2 [Some c3]).
    set (c1 := Node ck1 o1 a1 d1 [Some c2]).
    set (n := Node tok.TRY o a d [Some t; Some c1; f]).
    assert (deep P cb) as Hcb.
    { apply (deep_kid P c3); [|set_solver].
      apply (deep_kid P c2); [|set_solver].
      apply (deep_kid P c1); [|set_solver].
      apply Hd. set_solver. }
    rewrite (deep_here P t (Hd t ltac:(set_solver)) _ ((n, 0) :: up')).
    destruct (_get_exit_points t _); simpl; [|done].
    rewrite (deep_here P cb Hcb _
               ((c3, 2) :: (c2, 0) :: (c1, 0) :: (n, 1)
                  :: up')).
    destruct (_get_exit_points cb _); simpl; [|done].
    destruct f as [f|]; [|done].
    by rewrite (deep_here P f (Hd f ltac:(set_solver)) _
                  ((n, 2) :: up')).
Qed.

(** ** Sets of exit points *)

Lemma discard_difference (x : option tok.t) (E : exit_set) :
  discard x E = E ∖ {[x]}.
Proof. unfold discard. case_decide; set_solver. Qed.

Lemma set_remove_member (x : option tok.t) (E : exit_set) :
  x ∈ E → set_remove x E = Ok (E ∖ {[x]}).
Proof. intros Hx. unfold set_remove. by rewrite decide_True. Qed.

Lemma foldl_exit_points_others (sets : list exit_set) e (x : option tok.t) :
  x ≠ None →
  x ∈ foldl (λ e E, e ∖ {[None]} ∪ E) e sets ↔ x ∈ e ∨ x ∈ ⋃ sets.
Proof.
  intros Hx. revert e. induction sets as [|E sets IH]; intros e; simpl.
  - set_solver.
  - rewrite IH. set_solver.
Qed.

Lemma foldl_exit_points_none (sets : list exit_set) e :
  None ∈ foldl (λ e E, e ∖ {[None]} ∪ E) e sets ↔
  match last sets with
  | Some E => None ∈ E
  | None => None ∈ e
  end.
Proof.
  revert e. induction sets as [|E sets IH]; intros e; [reflexivity|].
  simpl. rewrite IH. destruct sets as [|E' sets].
  - simpl. set_solver.
  - rewrite last_cons_cons.
    destruct (last (E' :: sets)) eqn:Hlast; [done|].
    by apply last_None in Hlast.
Qed.

(** ** Trees without [break], [return] and [throw] *)

Lemma jump_free_kids k o a d ks :
  jump_free (Node k o a d ks) = true → Forall (λ x, slot_jump_free x = true) ks.
Proof.
  simpl. intros [_ Hks]%andb_true_iff.
  induction ks as [|[kid|] ks IH]; constructor; simpl in *;
    try apply andb_true_iff in Hks as [? ?]; auto.
Qed.

Lemma jump_free_kind k o a d ks :
  jump_free (Node k o a d ks) = true →
  k ≠ tok.BREAK ∧ k ≠ tok.RETURN ∧ k ≠ tok.THROW.
Proof.
  simpl. intros [Hk _]%andb_true_iff.
  apply negb_true_iff, bool_decide_eq_false in Hk. set_solver.
Qed.

Lemma jump_free_kid n m :
  jump_free n = true → Some m ∈ kids n → jump_free m = true.
Proof.
  destruct n as [k o a d ks]. intros Hn%jump_free_kids Hm.
  rewrite Forall_forall in Hn. apply (Hn _ Hm).
Qed.

Lemma block_loop_bounded l :
  Forall falls_through l →
  ∀ n up i e E,
    e ⊆ {[None]} →
    block_loop _get_exit_points n up l i e = Ok E → E ⊆ {[None]}.
Proof.
  induction 1 as [|[kid|] l Hkid _ IH]; intros n up i e E He; simpl.
  - by intros [= <-].
  - destruct (_get_exit_points kid _) as [Sk|] eqn:Hk; simpl; [|done].
    apply IH. rewrite discard_difference.
    pose proof (Hkid kid eq_refl _ _ Hk). set_solver.
  - apply IH. rewrite discard_difference. set_solver.
Qed.

Lemma switch_loop_bounded l :
  Forall (λ c, ∀ m, c = Some m → Forall falls_through (kids m)) l →
  ∀ s up i e dflt fallthru e' dflt' fallthru',
    e ⊆ {[None]} →
    switch_loop _get_exit_points s up l i (e, dflt, fallthru) =
      Ok (e', dflt', fallthru') →
    e' ⊆ {[None]}.
Proof.
  induction 1 as [|[c|] l Hc _ IH];
    intros s up i e dflt fallthru e' dflt' fallthru' He; simpl;
    [by intros [= <- _ _]| |done].
  specialize (Hc c eq_refl).
  destruct c as [ck co ca cd [|v [|[body|] [|]]]]; simpl in *; try done.
  apply Forall_cons_1 in Hc as [_ [Hbody _]%Forall_cons_1].
  destruct (_get_exit_points body _) as [Sb|] eqn:Hb; simpl; [|done].
  apply IH. pose proof (Hbody body eq_refl _ _ Hb). set_solver.
Qed.

Lemma on_last_kid_bounded l :
  Forall falls_through l →
  ∀ n up i E,
    on_last_kid _get_exit_points n up l i = Ok E → E ⊆ {[None]}.
Proof.
  induction 1 as [|kid l Hkid Hl IH]; intros n up i E; [done|].
  destruct l as [|kid' l].
  - destruct kid as [kid|]; simpl; [|done]. by apply Hkid.
  - destruct kid; apply IH.
Qed.

Lemma jump_free_exit_points n :
  jump_free n = true → ∀ up E, _get_exit_points n up = Ok E → E ⊆ {[None]}.
Proof.
  induction n as [k o a d ks IH] using node_deep_ind.
  set (P := λ n, jump_free n = true →
                 ∀ up E, _get_exit_points n up = Ok E → E ⊆ {[None]}) in IH.
  intros Hfree.
  assert (∀ n, deep P n → jump_free n = true →
            Forall falls_through (kids n)) as Hbelow.
  { intros n Hn Hj. rewrite Forall_forall. intros x Hx m ->.
    apply (deep_here P m); [by apply (deep_kid P n)|].
    by apply (jump_free_kid n). }
  assert (∀ m, Some m ∈ ks → deep P m ∧ jump_free m = true) as Hd.
  { intros m Hm. rewrite Forall_forall in IH. split; [by apply (IH _ Hm)|].
    by apply (jump_free_kid (Node k o a d ks)). }
  assert (Forall falls_through ks) as Hks.
  { rewrite Forall_forall. intros x Hx m ->.
    destruct (Hd m Hx) as [Hm Hj]. by apply (deep_here P m). }
  clear IH. apply jump_free_kind in Hfree as (? & ? & ?).
  intros up E. destruct k; try done; try (by intros [= <-]).
  - (* tok.LC *) by apply block_loop_bounded.
  - (* tok.IF *)
    destruct ks as [|c [|[t|] [|e [|]]]]; try done. simpl.
    apply Forall_cons_1 in Hks as [_ [Ht [He _]%Forall_cons_1]%Forall_cons_1].
    destruct (_get_exit_points t _) as [St|] eqn:HSt; simpl; [|done].
    pose proof (Ht t eq_refl _ _ HSt).
    destruct e as [e|]; [|by intros [= <-]].
    destruct (_get_exit_points e _) as [Se|] eqn:HSe; simpl; [|done].
    pose proof (He e eq_refl _ _ HSe). intros [= <-]. set_solver.
  - (* tok.SWITCH *)
    destruct ks as [|v [|[[sk so sa sd cases]|] [|]]]; try done. simpl.
    destruct (switch_loop _ _ _ _ _ _) as [[[e dflt] fallthru]|] eqn:Hloop;
      [|done].
    assert (e ⊆ {[None]}) as He.
    { eapply switch_loop_bounded; [|done|exact Hloop].
      destruct (Hd (Node sk so sa sd cases)) as [Hs Hj]; [set_solver|].
      rewrite Forall_forall. intros c Hc m ->. apply Hbelow.
      - by apply (deep_kid P (Node sk so sa sd cases)).
      - by apply (jump_free_kid (Node sk so sa sd cases)). }
    unfold set_remove. case_decide; simpl; [|done].
    intros [= <-]. repeat case_decide; destruct dflt, fallthru; set_solver.
  - (* tok.WITH *) by apply on_last_kid_bounded.
  - (* tok.TRY *)
    destruct ks as [|t [|[[ck1 o1 a1 d1 ks1]|] [|f [|]]]]; try done. simpl.
    destruct (bool_decide (ck1 = tok.RESERVED)); simpl; [|done].
    destruct ks1 as [|[[ck2 o2 a2 d2 ks2]|] [|]]; try done. simpl.
    destruct (bool_decide (ck2 = tok.LEXICALSCOPE)); simpl; [|done].
    destruct ks2 as [|[[ck3 o3 a3 d3 ks3]|] [|]]; try done. simpl.
    destruct (bool_decide (ck3 = tok.CATCH)); simpl; [|done].
    destruct ks3 as [|x [|y [|[cb|] [|]]]]; try done. simpl.
    destruct (bool_decide (kind cb = tok.LC)); simpl; [|done].
    destruct t as [t|]; [|done].
    set (c3 := Node ck3 o3 a3 d3 [x; y; Some cb]) in *.
    set (c2 := Node ck2 o2 a2 d2 [Some c3]) in *.
    set (c1 := Node ck1 o1 a1 d1 [Some c2]) in *.
    assert (falls_through (Some cb)) as Hcb.
    { destruct (Hd c1) as [Hc1 Jc1]; [set_solver|].
      assert (deep P c2 ∧ jump_free c2 = true) as [Hc2 Jc2].
      { split; [apply (deep_kid P c1)|apply (jump_free_kid c1)];
          set_solver. }
      assert (deep P c3 ∧ jump_free c3 = true) as [Hc3' Jc3].
      { split; [apply (deep_kid P c2)|apply (jump_free_kid c2)];
          set_solver. }
      pose proof (Hbelow c3 Hc3' Jc3) as Hc3. rewrite Forall_forall in Hc3.
      apply Hc3. set_solver. }
    apply Forall_cons_1 in Hks as [Ht [_ [Hf _]%Forall_cons_1]%Forall_cons_1].
    destruct (_get_exit_points t _) as [St|] eqn:HSt; simpl; [|done].
    pose proof (Ht t eq_refl _ _ HSt).
    destruct (_get_exit_points cb _) as [Sc|] eqn:HSc; simpl; [|done].
    pose proof (Hcb cb eq_refl _ _ HSc).
    destruct f as [f|]; [|intros [= <-]; set_solver].
    destruct (_get_exit_points f _) as [Sf|] eqn:HSf; simpl; [|done].
    pose proof (Hf f eq_refl _ _ HSf).
    rewrite discard_difference. case_decide; intros [= <-]; set_solver.
Qed.

(** ** Blocks *)

Lemma block_loop_exit_points l sets :
  Forall2 (λ kid E, slot_exit_points kid = Ok E) l sets →
  ∀ n up i e,
    block_loop _get_exit_points n up l i e =
    Ok (foldl (λ e E, e ∖ {[None]} ∪ E) e sets).
Proof.
  induction 1 as [|[kid|] E l sets HS _ IH]; intros n up i e; simpl in *;
    [done| |].
  - rewrite (_get_exit_points_up kid _ []), HS. simpl.
    by rewrite IH, discard_difference.
  - injection HS as <-. rewrite IH, discard_difference.
    do 2 f_equal. set_solver.
Qed.

Lemma return_exit_points r up :
  kind r = tok.RETURN → _get_exit_points r up = Ok {[Some tok.RETURN]}.
Proof. destruct r as [k o a d ks]. simpl. by intros ->. Qed.

(** C3, as it is stated, fails on two blocks. The empty block [{}] has the
    exit points [{None}] although it has no last statement. The block
    [{ if (c) throw e; return; }] ends in a [return], its other statement
    is an [if], and its exit points are [{tok.THROW, tok.RETURN}]. *)
Lemma block_exit_points_counterexample :
  (_get_exit_points (js_block []) [] = Ok {[None]} ∧
   last (kids (js_block [])) = None) ∧
  (_get_exit_points
     (js_block [js_if (js_name "c") (js_throw (js_name "e")) None; js_return])
     [] = Ok {[Some tok.THROW; Some tok.RETURN]} ∧
   (kind (js_if (js_name "c") (js_throw (js_name "e")) None)
      ∉ [tok.BREAK; tok.CONTINUE; tok.RETURN; tok.THROW]) ∧
   ({[Some tok.THROW; Some tok.RETURN]} : exit_set) ≠ {[Some tok.RETURN]}).
Proof.
  repeat split; try (vm_compute; reflexivity).
  - set_solver.
  - intros Heq. assert (Some tok.THROW ∈ ({[Some tok.RETURN]} : exit_set))
      as Hin by (rewrite <- Heq; set_solver).
    set_solver.
Qed.

(** C3 (amended): the exit points of the empty block are [{None}]. On a
    block with statements whose exit points are [sets], in order, where an
    elided slot has no exit points, [_get_exit_points] returns a set whose
    members other than [None] are those of the union of [sets], and of
    which [None] is a member exactly when it is a member of the last set
    of [sets]. In particular the exit points are [{tok.RETURN}] when the
    last statement is a [return] and no [break], [return] or [throw]
    occurs at any depth in the statements before it. *)
Theorem block_exit_points o a d ks sets up :
  Forall2 (λ kid E, slot_exit_points kid = Ok E) ks sets →
  ∃ E, _get_exit_points (Node tok.LC o a d ks) up = Ok E ∧
       (ks = [] → E = {[None]}) ∧
       (∀ x, x ≠ None → x ∈ E ↔ x ∈ ⋃ sets) ∧
       (ks ≠ [] → None ∈ E ↔ ∃ El, last sets = Some El ∧ None ∈ El) ∧
       (∀ front r,
          ks = front ++ [Some r] → kind r = tok.RETURN →
          Forall (λ kid, slot_jump_free kid = true) front →
          E = {[Some tok.RETURN]}).
Proof.
  intros Hsets. eexists. split.
  { simpl. by apply block_loop_exit_points. }
  split; [|split; [|split]].
  - intros ->. by apply Forall2_nil_inv_l in Hsets as ->.
  - intros x Hx. rewrite foldl_exit_points_others by done. set_solver.
  - intros Hks. rewrite foldl_exit_points_none.
    destruct (last sets) as [El|] eqn:Hlast.
    + split; [eauto|]. by intros (? & [= <-] & ?).
    + apply last_None in Hlast as ->.
      by apply Forall2_nil_inv_r in Hsets.
  - intros front r -> Hr Hfront.
    apply Forall2_app_inv_l in Hsets as (sf & sr & Hsf & Hsr & ->).
    apply Forall2_cons_inv_l in Hsr as (Er & ? & HEr & ->%Forall2_nil_inv_l & ->).
    simpl in HEr. rewrite return_exit_points in HEr by done.
    injection HEr as <-. rewrite foldl_app. simpl.
    assert (∀ x, x ≠ None → x ∉ ⋃ sf) as Hsf'.
    { intros x Hx (E & HE & HxE)%elem_of_union_list.
      apply list_elem_of_lookup in HE as [i HE].
      destruct (Forall2_lookup_r _ _ _ _ _ Hsf HE) as (kid & Hkid & Hslot).
      rewrite Forall_forall in Hfront.
      pose proof (Hfront kid ltac:(by eapply list_elem_of_lookup_2)) as Hj.
      destruct kid as [kid|]; simpl in *.
      - pose proof (jump_free_exit_points kid Hj _ _ Hslot). set_solver.
      - injection Hslot as <-. set_solver. }
    apply set_eq. intros x. destruct (decide (x = None)) as [->|Hx].
    + set_solver.
    + pose proof (foldl_exit_points_others sf {[None]} x Hx).
      pose proof (Hsf' x Hx). set_solver.
Qed.

Lemma block_exit_points_witness :
  let ks := [Some (js_expr (js_call "f")); Some js_return] in
  Forall2 (λ kid E, slot_exit_points kid = Ok E) ks
    [{[None]}; {[Some tok.RETURN]}] ∧
  ∃ E, _get_exit_points (Node tok.LC op.NOP "" 0%float ks) [] = Ok E ∧
       E = {[Some tok.RETURN]}.
Proof.
  assert (Forall2 (λ kid E, slot_exit_points kid = Ok E)
            [Some (js_expr (js_call "f")); Some js_return]
            [{[None]}; {[Some tok.RETURN]}]) as Hsets.
  { repeat constructor. }
  split; [exact Hsets|].
  destruct (block_exit_points op.NOP "" 0%float _ _ [] Hsets)
    as (E & HE & _ & _ & _ & Hret).
  exists E. split; [exact HE|].
  apply (Hret [Some (js_expr (js_call "f"))] js_return); repeat constructor.
Defined.

(** ** try, catch and finally *)

(** The exit points of a [try] statement with a [finally] block, where
    [T], [C] and [F] are the exit points of the [try], [catch] and
    [finally] blocks: [T ∪ C] united with [F] without [None] when [None]
    is in [F], and [T ∪ C] without [None] united with [F] otherwise. *)
Lemma try_finally_exit_points
    o a d o1 a1 d1 o2 a2 d2 o3 a3 d3 x y try_ catch_ finally_ up T C F :
  kind catch_ = tok.LC →
  _get_exit_points try_ [] = Ok T →
  _get_exit_points catch_ [] = Ok C →
  _get_exit_points finally_ [] = Ok F →
  _get_exit_points
    (Node tok.TRY o a d
       [Some try_;
        Some (Node tok.RESERVED o1 a1 d1
                [Some (Node tok.LEXICALSCOPE o2 a2 d2
                         [Some (Node tok.CATCH o3 a3 d3
                                  [x; y; Some catch_])])]);
        Some finally_]) up =
  Ok (if decide (None ∈ F) then (T ∪ C) ∪ F ∖ {[None]}
      else (T ∪ C) ∖ {[None]} ∪ F).
Proof.
  intros Hkind HT HC HF. simpl.
  rewrite bool_decide_eq_true_2 by done. simpl.
  rewrite (_get_exit_points_up try_ _ []), HT. simpl.
  rewrite (_get_exit_points_up catch_ _ []), HC. simpl.
  rewrite (_get_exit_points_up finally_ _ []), HF. simpl.
  case_decide; [done|]. by rewrite discard_difference.
Qed.

(** C1: the claim is that the exit points of a [finally] block without
    [None] replace those of the [try] and [catch] blocks, as the comment in
    the source has it (the other exit points are irrelevant). The code
    only takes [None] out of them: on [try { return; } catch (e) {}
    finally { throw e; }] the exit points of the [finally] block are
    [{tok.THROW}] and those of the statement are [{tok.RETURN,
    tok.THROW}], where the [return] of the [try] block survives. *)
Theorem try_finally_keeps_return :
  let finally_ := js_block [js_throw (js_name "e")] in
  _get_exit_points finally_ [] = Ok {[Some tok.THROW]} ∧
  _get_exit_points (js_try [js_return] "e" [] (Some finally_)) [] =
    Ok {[Some tok.RETURN; Some tok.THROW]} ∧
  ({[Some tok.RETURN; Some tok.THROW]} : exit_set) ≠ {[Some tok.THROW]}.
Proof.
  repeat split; try (vm_compute; reflexivity).
  intros Heq. assert (Some tok.RETURN ∈ ({[Some tok.THROW]} : exit_set))
    as Hin by (rewrite <- Heq; set_solver).
  set_solver.
Qed.

(** ** switch *)

Lemma switch_loop_exit_points cases sets :
  Forall2 case_exit_points cases sets →
  ∀ s up i e dflt fallthru,
    switch_loop _get_exit_points s up cases i (e, dflt, fallthru) =
    Ok (e ∪ ⋃ sets,
        dflt || existsb is_default cases,
        from_option (λ E, bool_decide (None ∈ E)) fallthru (last sets)).
Proof.
  induction 1 as [|c E cases sets (k & o & a & d & v & body & -> & HE) Hrest IH];
    intros s up i e dflt fallthru; simpl.
  - rewrite orb_false_r. do 3 f_equal. set_solver.
  - rewrite (_get_exit_points_up body _ []), HE. simpl. rewrite IH.
    f_equal. f_equal; [f_equal|].
    + set_solver.
    + rewrite <- orb_assoc. f_equal. f_equal. unfold is_default. simpl.
      apply bool_decide_ext. naive_solver.
    + destruct sets as [|E' sets]; [done|]. rewrite last_cons_cons.
      destruct (last (E' :: sets)) eqn:Hlast; [done|].
      by apply last_None in Hlast.
Qed.

(** C4: a [switch] none of whose cases is a [default] has [None] among its
    exit points, whatever the exit points of the bodies of its cases. *)
Theorem switch_without_default o a d v sk so sa sd cases sets up :
  Forall2 case_exit_points cases sets →
  existsb is_default cases = false →
  ∃ E, _get_exit_points
         (Node tok.SWITCH o a d [v; Some (Node sk so sa sd cases)]) up = Ok E ∧
       None ∈ E.
Proof.
  intros Hsets Hdflt. simpl.
  rewrite (switch_loop_exit_points cases sets Hsets), Hdflt. simpl.
  rewrite set_remove_member by set_solver. simpl.
  eexists. split; [done|].
  repeat case_decide; destruct (from_option _ _ _); set_solver.
Qed.

Lemma switch_without_default_witness :
  let cases := [Some (js_case (js_number "1" 1%float) [js_return]);
                Some (js_case (js_number "2" 2%float)
                        [js_throw (js_name "e")])] in
  (Forall2 case_exit_points cases [{[Some tok.RETURN]}; {[Some tok.THROW]}] ∧
   existsb is_default cases = false) ∧
  ∃ E, _get_exit_points
         (Node tok.SWITCH op.NOP "" 0%float
            [Some (js_name "x"); Some (Node tok.LC op.NOP "" 0%float cases)])
         [] = Ok E ∧
       None ∈ E.
Proof.
  assert (Forall2 case_exit_points
            [Some (js_case (js_number "1" 1%float) [js_return]);
             Some (js_case (js_number "2" 2%float) [js_throw (js_name "e")])]
            [{[Some tok.RETURN]}; {[Some tok.THROW]}]) as Hsets.
  { repeat constructor; do 6 eexists; split; reflexivity. }
  split; [split; [exact Hsets|reflexivity]|].
  exact (switch_without_default op.NOP "" 0%float (Some (js_name "x"))
           tok.LC op.NOP "" 0%float _ _ [] Hsets eq_refl).
Defined.

(** C5: a [switch] with a [default] case in which the exit points of the
    body of every case are [{tok.BREAK}] has the exit points [{None}]. *)
Theorem switch_of_breaks o a d v sk so sa sd cases up :
  Forall (λ c, case_exit_points c {[Some tok.BREAK]}) cases →
  existsb is_default cases = true →
  _get_exit_points
    (Node tok.SWITCH o a d [v; Some (Node sk so sa sd cases)]) up =
  Ok {[None]}.
Proof.
  intros Hcases Hdflt.
  assert (Forall2 case_exit_points cases
            (replicate (length cases) {[Some tok.BREAK]})) as Hsets.
  { clear Hdflt. induction Hcases; simpl; by constructor. }
  assert (cases ≠ []) as Hne by (by intros ->).
  simpl. rewrite (switch_loop_exit_points cases _ Hsets), Hdflt. simpl.
  assert (⋃ replicate (length cases) ({[Some tok.BREAK]} : exit_set) =
          {[Some tok.BREAK]}) as ->.
  { destruct cases as [|c cases]; [done|]. clear. simpl.
    induction cases as [|c' cases IH]; simpl in *; set_solver. }
  assert (last (replicate (length cases) ({[Some tok.BREAK]} : exit_set)) =
          Some {[Some tok.BREAK]}) as ->.
  { destruct cases as [|c cases]; [done|]. clear. simpl.
    induction cases as [|c' cases IH]; [done|].
    simpl in *. exact IH. }
  simpl. rewrite set_remove_member by set_solver. simpl.
  rewrite decide_True by set_solver.
  rewrite bool_decide_eq_false_2 by set_solver.
  f_equal; set_solver.
Qed.

Lemma switch_of_breaks_witness :
  let cases := [Some (js_case (js_number "1" 1%float)
                        [js_expr (js_call "f"); js_break]);
                Some (js_default [js_break])] in
  (Forall (λ c, case_exit_points c {[Some tok.BREAK]}) cases ∧
   existsb is_default cases = true) ∧
  _get_exit_points
    (Node tok.SWITCH op.NOP "" 0%float
       [Some (js_name "x"); Some (Node tok.LC op.NOP "" 0%float cases)]) [] =
  Ok {[None]}.
Proof.
  assert (Forall (λ c, case_exit_points c {[Some tok.BREAK]})
            [Some (js_case (js_number "1" 1%float)
                     [js_expr (js_call "f"); js_break]);
             Some (js_default [js_break])]) as Hcases.
  { repeat constructor; do 6 eexists; split; reflexivity. }
  split; [split; [exact Hcases|reflexivity]|].
  exact (switch_of_breaks op.NOP "" 0%float (Some (js_name "x"))
           tok.LC op.NOP "" 0%float _ [] Hcases eq_refl).
Defined.

(** ** Missing break *)

(** C2, as it is stated, fails on [switch (x) { case 1: case 2: b();
    break; }]: [case 1] is not the last case and the exit points of its
    body, the empty block, are [{None}], yet [missing_break] returns
    without a warning. *)
Lemma missing_break_counterexample :
  ∃ case1 body,
    locate (NodeObj empty_case_script []) [0; 1; 0] = Some case1 ∧
    kind (focus case1) = tok.CASE ∧
    node_index case1 = Some 0 ∧
    length <$> (kids <$> (focus <$> parent case1)) = Some 2 ∧
    kids (focus case1) !! 1 = Some (Some body) ∧
    _get_exit_points body [] = Ok {[None]} ∧
    missing_break case1 = Ok tt ∧
    findings [Kind tok.CASE; Kind tok.DEFAULT] missing_break
      empty_case_script = Ok [].
Proof.
  do 2 eexists. split; [reflexivity|].
  repeat split; vm_compute; reflexivity.
Qed.

(** C2 (amended): on a case [c] in the slot [i] of [pn] that is followed
    by the slot [next], and whose body is a block with the exit points
    [E], [missing_break] returns without a warning when the body is empty
    or [None] is not in [E]. When the body has a statement and [None] is
    in [E], it raises one warning, on the node in the slot [next]; if
    that slot is elided, the [raise] statement itself fails with
    [TypeError] and there is no warning. On [switch (x) { case 1: a();
    case 2: b(); break; }] the one finding is [case 2]. *)
Theorem missing_break_finding :
  (∀ c pn i up body next E,
     kids c !! 1 = Some (Some body) →
     kind body = tok.LC →
     kids pn !! S i = Some next →
     _get_exit_points body [] = Ok E →
     missing_break (NodeObj c ((pn, i) :: up)) =
     if decide (kids body ≠ [] ∧ None ∈ E)
     then match next with
          | Some sibling =>
              Raise (LintWarning (Some (NodeObj sibling ((pn, S i) :: up))))
          | None => Raise TypeError
          end
     else Ok tt) ∧
  (∃ case2,
     locate (NodeObj fallthru_script []) [0; 1; 1] = Some case2 ∧
     focus case2 =
       js_case (js_number "2" 2%float) [js_expr (js_call "b"); js_break] ∧
     findings [Kind tok.CASE; Kind tok.DEFAULT] missing_break
       fallthru_script = Ok [Some case2]).
Proof.
  split.
  - intros c pn i up body next E Hbody Hkind Hnext HE.
    unfold missing_break. simpl.
    apply lookup_lt_Some in Hnext as Hlt.
    rewrite bool_decide_eq_false_2 by lia.
    rewrite Hbody, Hkind. simpl.
    rewrite (_get_exit_points_up body _ []), HE. simpl.
    case_bool_decide as Hkids.
    + rewrite decide_False; [done|]. naive_solver.
    + destruct (decide (None ∈ E)).
      * rewrite Hnext. rewrite decide_True by done. by destruct next.
      * rewrite decide_False; [done|]. naive_solver.
  - eexists. split; [reflexivity|]. split; vm_compute; reflexivity.
Qed.

Lemma missing_break_finding_witness :
  let c := js_case (js_number "1" 1%float) [js_expr (js_call "a")] in
  let next := js_case (js_number "2" 2%float) [js_break] in
  let pn := js_block [c; next] in
  (kids c !! 1 = Some (Some (js_block [js_expr (js_call "a")])) ∧
   kind (js_block [js_expr (js_call "a")]) = tok.LC ∧
   kids pn !! 1 = Some (Some next) ∧
   _get_exit_points (js_block [js_expr (js_call "a")]) [] = Ok {[None]}) ∧
  missing_break (NodeObj c [(pn, 0)]) =
    Raise (LintWarning (Some (NodeObj next [(pn, 1)]))).
Proof.
  split; [repeat split; vm_compute; reflexivity|].
  refine (eq_trans
            (proj1 missing_break_finding
               (js_case (js_number "1" 1%float) [js_expr (js_call "a")])
               (js_block
                  [js_case (js_number "1" 1%float) [js_expr (js_call "a")];
                   js_case (js_number "2" 2%float) [js_break]])
               0 [] (js_block [js_expr (js_call "a")])
               (Some (js_case (js_number "2" 2%float) [js_break]))
               {[None]} _ _ _ _) _);
    vm_compute; reflexivity.
Defined.

(** ** Comparison with type conversion *)

Lemma comparison_type_conv_loop_clean l (o : nodeobj) :
  Forall (λ m, converting_literal m = false) l →
  ∀ i rest,
    comparison_type_conv_loop ((Some <$> l) ++ rest) i o =
    comparison_type_conv_loop rest (length l + i) o.
Proof.
  induction 1 as [|m l Hm _ IH]; intros i rest; [done|].
  simpl. rewrite IH, Nat.add_succ_r.
  unfold converting_literal in Hm.
  apply orb_false_iff in Hm as [[H1 H2]%orb_false_iff H3].
  apply bool_decide_eq_false in H1, H3.
  unfold float_true, str_true. rewrite !negb_involutive, H2.
  assert (bool_decide (kind m = tok.PRIMARY) &&
          bool_decide (opcode m ∈ [op.NULL; op.TRUE; op.FALSE]) = false)
    as ->.
  { apply not_true_is_false. intros [Hk Ho]%andb_true_iff.
    apply bool_decide_eq_true in Hk, Ho. apply H1. set_solver. }
  assert (bool_decide (kind m = tok.STRING) && bool_decide (atom m = "")
          = false) as ->; [|done].
  apply not_true_is_false. intros [Hk Ha]%andb_true_iff.
  apply bool_decide_eq_true in Hk, Ha. by apply H3.
Qed.

Lemma comparison_type_conv_loop_found kid rest i (o : nodeobj) :
  converting_literal kid = true →
  comparison_type_conv_loop (Some kid :: rest) i o =
  Raise (LintWarning (Some (NodeObj kid ((focus o, i) :: above o)))).
Proof.
  intros Hkid. simpl. unfold converting_literal in Hkid.
  unfold float_true, str_true. rewrite !negb_involutive.
  apply orb_true_iff in Hkid as [[H1|H2]%orb_true_iff|H3].
  - apply bool_decide_eq_true in H1 as [Hk Hop].
    rewrite (bool_decide_eq_true_2 (kind kid = tok.PRIMARY)) by done.
    rewrite (bool_decide_eq_true_2 (opcode kid ∈ _)) by set_solver.
    done.
  - rewrite H2. by destruct (bool_decide (kind kid = tok.PRIMARY) && _).
  - apply bool_decide_eq_true in H3 as [Hk Ha].
    rewrite (bool_decide_eq_true_2 (kind kid = tok.STRING)) by done.
    rewrite (bool_decide_eq_true_2 (atom kid = "")) by done.
    simpl.
    destruct (bool_decide (kind kid = tok.PRIMARY) && _); [done|].
    by destruct (bool_decide (kind kid = tok.NUMBER) && _).
Qed.

(** C6, as it is stated, fails on [null == 0]: the right operand is a
    numeric literal of value zero and the one warning is on the left
    operand. *)
Lemma comparison_type_conv_counterexample :
  ∃ comparison left right,
    locate (NodeObj null_equals_zero []) [0; 0] = Some comparison ∧
    locate comparison [0] = Some left ∧
    locate comparison [1] = Some right ∧
    left ≠ right ∧
    converting_literal (focus right) = true ∧
    comparison_type_conv comparison = Raise (LintWarning (Some left)) ∧
    findings [KindOp tok.EQOP op.EQ] comparison_type_conv null_equals_zero =
      Ok [Some left].
Proof.
  do 3 eexists. do 3 (split; [reflexivity|]).
  split; [done|]. repeat split; vm_compute; reflexivity.
Qed.

(** C6 (amended): on a comparison whose operands are all there,
    [comparison_type_conv] raises one warning, on the first operand that
    is a [null], [true] or [false] literal, a numeric literal of value zero
    or an empty string literal, and returns without a warning when no
    operand is one of these. *)
Theorem comparison_type_conv_finding node :
  (∀ before kid after,
     kids (focus node) = (Some <$> before) ++ Some kid :: after →
     Forall (λ m, converting_literal m = false) before →
     converting_literal kid = true →
     comparison_type_conv node =
     Raise (LintWarning
              (Some (NodeObj kid ((focus node, length before) :: above node))))) ∧
  (∀ operands,
     kids (focus node) = Some <$> operands →
     Forall (λ m, converting_literal m = false) operands →
     comparison_type_conv node = Ok tt).
Proof.
  unfold comparison_type_conv. split.
  - intros before kid after -> Hbefore Hkid.
    rewrite comparison_type_conv_loop_clean by done.
    rewrite comparison_type_conv_loop_found by done.
    by rewrite Nat.add_0_r.
  - intros operands -> Hops.
    rewrite <- (app_nil_r (Some <$> operands)).
    by rewrite comparison_type_conv_loop_clean.
Qed.

Lemma comparison_type_conv_finding_witness :
  let x := js_name "x" in
  let zero := js_number "0" 0%float in
  let node := NodeObj (js_eq x zero) [] in
  (kids (focus node) = (Some <$> [x]) ++ [Some zero] ∧
   Forall (λ m, converting_literal m = false) [x] ∧
   converting_literal zero = true) ∧
  comparison_type_conv node =
    Raise (LintWarning (Some (NodeObj zero [(js_eq x zero, 1)]))).
Proof.
  split; [repeat split; repeat constructor|].
  refine (proj1 (comparison_type_conv_finding
                   (NodeObj (js_eq (js_name "x") (js_number "0" 0%float)) []))
            [js_name "x"] (js_number "0" 0%float) [] _ _ _);
    repeat constructor.
Defined.

(** ** Ambiguous else *)

Lemma ambiguous_else_walk_warns else_ up :
  ∀ tmp j entry,
    up !! j = Some entry →
    in_then_position entry →
    (∀ i m, i ≤ j → chain tmp up !! i = Some m → kind m ≠ tok.LC) →
    ambiguous_else_walk else_ tmp up = Raise (LintWarning (Some else_)).
Proof.
  induction up as [|[p idx] up IH]; intros tmp j entry Hj Hthen Hblock;
    [done|].
  simpl. rewrite bool_decide_eq_false_2
    by (apply (Hblock 0 tmp); [lia|done]).
  destruct j as [|j]; simpl in Hj.
  - injection Hj as <-. destruct Hthen as [Hk Hi]. simpl in *.
    by rewrite !bool_decide_eq_true_2.
  - destruct (_ && _); [done|].
    apply (IH p j entry Hj Hthen). intros i m Hi Hm.
    apply (Hblock (S i) m); [lia|done].
Qed.

Lemma ambiguous_else_walk_returns else_ up :
  ∀ tmp j block,
    chain tmp up !! j = Some block →
    kind block = tok.LC →
    (∀ i entry, i < j → up !! i = Some entry → ¬ in_then_position entry) →
    ambiguous_else_walk else_ tmp up = Ok tt.
Proof.
  induction up as [|[p idx] up IH]; intros tmp j block Hj Hblock Hthen.
  - destruct j as [|j]; [|done]. injection Hj as <-.
    simpl. by rewrite bool_decide_eq_true_2.
  - simpl. destruct j as [|j]; simpl in Hj.
    + injection Hj as <-. by rewrite bool_decide_eq_true_2.
    + case_bool_decide; [done|].
      rewrite (proj2 (andb_false_iff _ _)).
      * apply (IH p j block Hj Hblock). intros i entry Hi Hentry.
        apply (Hthen (S i) entry); [lia|done].
      * pose proof (Hthen 0 (p, idx) ltac:(lia) eq_refl) as Hn.
        unfold in_then_position in Hn. simpl in Hn.
        destruct (decide (kind p = tok.IF)).
        -- right. apply bool_decide_eq_false. naive_solver.
        -- left. by apply bool_decide_eq_false.
Qed.

(** C7: on an [if] with an [else] branch, [ambiguous_else_stmt] goes up
    from the [if] through its ancestors. It raises one warning, on the
    [else] branch, when one of these nodes is the first branch of an [if]
    and neither it nor a node before it is a block; it returns without a
    warning when one of these nodes is a block and no node before it is the
    first branch of an [if]. On [if (a) if (b) f(); else g();] the one
    finding is the [else] branch, and on [if (a) { if (b) f(); } else g();]
    there is no finding. *)
Theorem ambiguous_else_stmt_finding :
  (∀ n up condition if_ else_,
     kids n = [condition; if_; Some else_] →
     (∀ j entry,
        up !! j = Some entry →
        in_then_position entry →
        (∀ i m, i ≤ j → chain n up !! i = Some m → kind m ≠ tok.LC) →
        ambiguous_else_stmt (NodeObj n up) =
        Raise (LintWarning (Some (NodeObj else_ ((n, 2) :: up))))) ∧
     (∀ j block,
        chain n up !! j = Some block →
        kind block = tok.LC →
        (∀ i entry, i < j → up !! i = Some entry → ¬ in_then_position entry) →
        ambiguous_else_stmt (NodeObj n up) = Ok tt)) ∧
  (∃ else_,
     locate (NodeObj dangling_else_script []) [0; 1; 2] = Some else_ ∧
     focus else_ = js_expr (js_call "g") ∧
     findings [Kind tok.IF] ambiguous_else_stmt dangling_else_script =
       Ok [Some else_]) ∧
  findings [Kind tok.IF] ambiguous_else_stmt braced_else_script = Ok [].
Proof.
  split; [|split].
  - intros n up condition if_ else_ Hkids.
    unfold ambiguous_else_stmt. simpl. rewrite Hkids. simpl. split.
    + intros j entry. apply ambiguous_else_walk_warns.
    + intros j block. apply ambiguous_else_walk_returns.
  - eexists. split; [reflexivity|]. split; vm_compute; reflexivity.
  - vm_compute. reflexivity.
Qed.

Lemma ambiguous_else_stmt_finding_witness :
  let else_ := js_expr (js_call "g") in
  let inner := js_if (js_name "b") (js_expr (js_call "f")) (Some else_) in
  let outer := js_if (js_name "a") inner None in
  let up := [(outer, 1); (js_block [outer], 0)] in
  (kids inner = [Some (js_name "b"); Some (js_expr (js_call "f")); Some else_] ∧
   up !! 0 = Some (outer, 1) ∧
   in_then_position (outer, 1) ∧
   (∀ i m, i ≤ 0 → chain inner up !! i = Some m → kind m ≠ tok.LC)) ∧
  ambiguous_else_stmt (NodeObj inner up) =
    Raise (LintWarning (Some (NodeObj else_ ((inner, 2) :: up)))).
Proof.
  intros else_ inner outer up.
  assert (∀ i m, i ≤ 0 → chain inner up !! i = Some m → kind m ≠ tok.LC)
    as Hblock.
  { intros i m Hi. destruct i as [|i]; [|lia]. by intros [= <-]. }
  split; [repeat split; done|].
  exact (proj1 (proj1 ambiguous_else_stmt_finding inner up
                  (Some (js_name "b")) (Some (js_expr (js_call "f"))) else_
                  eq_refl)
           0 (outer, 1) eq_refl (conj eq_refl eq_refl) Hblock).
Defined.

(** ** The analysis is self-contained *)

(** C8: [_get_exit_points] returns the same result on two node objects
    with the same subtree, whatever their parents, indices and siblings;
    with the same node object twice, two calls on one subtree return the
    same set. *)
Theorem exit_points_self_contained (o o' : nodeobj) :
  focus o = focus o' → exit_points_of o = exit_points_of o'.
Proof.
  intros Hfocus. unfold exit_points_of. rewrite Hfocus.
  apply _get_exit_points_up.
Qed.

Lemma exit_points_self_contained_witness :
  let body := js_block [js_expr (js_call "a"); js_break] in
  let case1 := js_case (js_number "1" 1%float)
                 [js_expr (js_call "a"); js_break] in
  let o := NodeObj body [(case1, 1); (js_block [case1], 0)] in
  let o' := NodeObj body [(js_block [body], 0)] in
  focus o = focus o' ∧
  o ≠ o' ∧
  exit_points_of o = exit_points_of o' ∧
  exit_points_of o = Ok {[Some tok.BREAK]}.
Proof.
  intros body case1 o o'.
  split; [reflexivity|]. split; [done|].
  split; [exact (exit_points_self_contained o o' eq_refl)|].
  vm_compute. reflexivity.
Defined.

(** ** Registration *)

Lemma lookfor_found args fn vis :
  warning_of fn ∈ dom warnings →
  lookfor args fn vis = Ok (vis ++ ((λ arg, (arg, fn)) <$> args)).
Proof.
  intros Hfn. unfold lookfor. rewrite bool_decide_eq_true_2; [|exact Hfn].
  reflexivity.
Qed.

Lemma lookfor_missing args fn vis :
  warning_of fn ∉ dom warnings → lookfor args fn vis = Raise AssertionError.
Proof.
  intros Hfn. unfold lookfor. rewrite bool_decide_eq_false_2; [|exact Hfn].
  reflexivity.
Qed.

Lemma load_found decls :
  Forall (λ d, warning_of d.2 ∈ dom warnings) decls →
  ∀ vis, load decls vis = Ok (vis ++ entries decls).
Proof.
  induction 1 as [|[args fn] decls Hfn _ IH]; intros vis; cbn [load].
  - unfold entries. cbn [mbind list_bind]. by rewrite app_nil_r.
  - rewrite lookfor_found by done. cbn [mbind result_bind]. rewrite IH.
    unfold entries. cbn [mbind list_bind fst snd]. by rewrite app_assoc.
Qed.

Lemma load_missing decls :
  Exists (λ d, warning_of d.2 ∉ dom warnings) decls →
  ∀ vis, load decls vis = Raise AssertionError.
Proof.
  induction 1 as [[args fn] decls Hfn|[args fn] decls _ IH]; intros vis;
    cbn [load].
  - by rewrite lookfor_missing.
  - destruct (decide (warning_of fn ∈ dom warnings)).
    + rewrite lookfor_found by done. cbn [mbind result_bind]. apply IH.
    + by rewrite lookfor_missing.
Qed.

(** C9: loading a module fails with an assertion error, before any tree
    is looked at, when the identifier of one of its decorated functions is
    not in [warnings], and registers every function under each of its
    keys otherwise. Every function that warnings.py decorates, those
    without a key among them, has its identifier in [warnings], and the
    module loads. *)
Theorem registry_construction :
  (∀ decls,
     Exists (λ d, warning_of d.2 ∉ dom warnings) decls →
     load decls [] = Raise AssertionError) ∧
  (∀ decls,
     Forall (λ d, warning_of d.2 ∈ dom warnings) decls →
     load decls [] = Ok (entries decls)) ∧
  Forall (λ d, warning_of d.2 ∈ dom warnings) decorations ∧
  load decorations [] = Ok (entries decorations).
Proof.
  assert (Forall (λ d, warning_of d.2 ∈ dom warnings) decorations) as Hall.
  { refine (bool_decide_unpack _ _). vm_compute. exact I. }
  split; [|split; [|split]].
  - intros decls Hdecls. by apply load_missing.
  - intros decls Hdecls. by rewrite load_found.
  - exact Hall.
  - by rewrite load_found.
Qed.

Lemma registry_construction_witness :
  let decls := [([Kind tok.IF], "ambiguous_else_stmt");
                ([Kind tok.DO], "do_statement_")] in
  Exists (λ d, warning_of d.2 ∉ dom warnings) decls ∧
  load decls [] = Raise AssertionError.
Proof.
  intros decls.
  assert (Exists (λ d, warning_of d.2 ∉ dom warnings) decls) as Hdecls.
  { refine (bool_decide_unpack _ _). vm_compute. exact I. }
  split; [exact Hdecls|].
  exact (proj1 registry_construction decls Hdecls).
Defined.

(** ** Trailing decimal point *)

(** C10: on a numeric literal whose parent is a property access,
    [trailing_decimal_point] raises a warning on the literal whatever its
    text; the text is looked at when the parent is of another kind, and
    the warning is then raised exactly when the text ends with a point. *)
Theorem trailing_decimal_point_finding n p i up :
  (kind p = tok.DOT →
   trailing_decimal_point (NodeObj n ((p, i) :: up)) =
   Raise (LintWarning (Some (NodeObj n ((p, i) :: up))))) ∧
  (kind p ≠ tok.DOT →
   trailing_decimal_point (NodeObj n ((p, i) :: up)) =
   if endswith (atom n) "."
   then Raise (LintWarning (Some (NodeObj n ((p, i) :: up))))
   else Ok tt).
Proof.
  unfold trailing_decimal_point. simpl. split; intros Hp.
  - by rewrite bool_decide_eq_true_2.
  - by rewrite bool_decide_eq_false_2.
Qed.

Lemma trailing_decimal_point_finding_witness :
  let one := js_number "1" 1%float in
  let access := js_dot one "toFixed" in
  let o := NodeObj one [(access, 0)] in
  (kind access = tok.DOT ∧ endswith (atom one) "." = false) ∧
  trailing_decimal_point o = Raise (LintWarning (Some o)).
Proof.
  intros one access o. split; [split; reflexivity|].
  exact (proj1 (trailing_decimal_point_finding one access 0 []) eq_refl).
Defined.

(** * Further properties *)

(** ** What the analysis returns and raises *)

Lemma block_loop_safe l :
  Forall (λ x, ∀ m, x = Some m → ∀ up, safe (_get_exit_points m up)) l →
  ∀ n up i e,
    e ⊆ exit_reasons → safe (block_loop _get_exit_points n up l i e).
Proof.
  induction 1 as [|[kid|] l Hkid _ IH]; intros n up i e He; simpl.
  - done.
  - pose proof (Hkid kid eq_refl ((n, i) :: up)) as Hsafe.
    destruct (_get_exit_points kid _) as [Ek|err]; simpl in *; [|done].
    apply IH. rewrite discard_difference. set_solver.
  - apply IH. rewrite discard_difference. set_solver.
Qed.

Lemma switch_loop_safe l :
  Forall (λ c, ∀ m, c = Some m →
            Forall (λ b, ∀ x, b = Some x →
                      ∀ up, safe (_get_exit_points x up)) (kids m)) l →
  ∀ s up i e dflt fallthru,
    e ⊆ exit_reasons → None ∈ e →
    match switch_loop _get_exit_points s up l i (e, dflt, fallthru) with
    | Ok (e', _, _) => e' ⊆ exit_reasons ∧ None ∈ e'
    | Raise err => shape_error err
    end.
Proof.
  induction 1 as [|[c|] l Hc _ IH]; intros s up i e dflt fallthru He HNone;
    simpl; [done| |unfold shape_error; auto].
  specialize (Hc c eq_refl).
  destruct c as [ck co ca cd [|v [|[body|] [|]]]]; simpl in *;
    try (by (simpl; unfold shape_error; auto)).
  apply Forall_cons_1 in Hc as [_ [Hbody _]%Forall_cons_1].
  pose proof (Hbody body eq_refl
                ((Node ck co ca cd [v; Some body], 1) :: (s, i) :: up))
    as Hsafe.
  destruct (_get_exit_points body _) as [Eb|err]; simpl in *; [|done].
  apply IH; set_solver.
Qed.

Lemma on_last_kid_safe l :
  Forall (λ x, ∀ m, x = Some m → ∀ up, safe (_get_exit_points m up)) l →
  ∀ n up i, safe (on_last_kid _get_exit_points n up l i).
Proof.
  induction 1 as [|kid l Hkid Hl IH]; intros n up i.
  - simpl. unfold shape_error. auto.
  - destruct l as [|kid' l].
    + destruct kid as [kid|]; simpl; [by apply Hkid|].
      unfold shape_error. auto.
    + destruct kid; apply IH.
Qed.

Lemma _get_exit_points_safe n : ∀ up, safe (_get_exit_points n up).
Proof.
  induction n as [k o a d ks IH] using node_deep_ind.
  set (P := λ n, ∀ up, safe (_get_exit_points n up)) in IH.
  assert (∀ m, Some m ∈ ks → deep P m) as Hd.
  { intros m Hm. rewrite Forall_forall in IH. by apply (IH _ Hm). }
  assert (∀ n, deep P n →
            Forall (λ x, ∀ m, x = Some m →
                      ∀ up, safe (_get_exit_points m up)) (kids n)) as Hbelow.
  { intros n Hn. rewrite Forall_forall. intros x Hx m ->.
    by apply (deep_here P m), (deep_kid P n). }
  assert (Forall (λ x, ∀ m, x = Some m →
                    ∀ up, safe (_get_exit_points m up)) ks) as Hks.
  { rewrite Forall_forall. intros x Hx m ->. by apply (deep_here P m), Hd. }
  clear IH. intros up.
  assert (∀ x : option tok.t, x ∈ exit_reasons ↔
            x = None ∨ x = Some tok.BREAK ∨ x = Some tok.RETURN ∨
            x = Some tok.THROW) as Hreasons.
  { intros x. unfold exit_reasons. set_solver. }
  assert (({[None]} : exit_set) ⊆ exit_reasons) as Hfalls
    by (unfold exit_reasons; set_solver).
  destruct k; try exact Hfalls;
    try (simpl; unfold exit_reasons; clear; set_solver).
  - (* tok.LC *) by apply block_loop_safe.
  - (* tok.IF *)
    destruct ks as [|c [|[t|] [|e [|]]]]; simpl;
      try (by (simpl; unfold shape_error; auto)).
    apply Forall_cons_1 in Hks as [_ [Ht [He _]%Forall_cons_1]%Forall_cons_1].
    pose proof (Ht t eq_refl ((Node tok.IF o a d [c; Some t; e], 1) :: up))
      as Hsafe.
    destruct (_get_exit_points t _) as [Et|err]; simpl in *; [|done].
    destruct e as [e|]; [|done].
    pose proof (He e eq_refl
                  ((Node tok.IF o a d [c; Some t; Some e], 2) :: up))
      as Hsafe'.
    destruct (_get_exit_points e _) as [Ee|err]; simpl in *; [|done].
    set_solver.
  - (* tok.SWITCH *)
    destruct ks as [|v [|[[sk so sa sd cases]|] [|]]]; simpl;
      try (by (simpl; unfold shape_error; auto)).
    set (stmts := Node sk so sa sd cases) in *.
    assert (deep P stmts) as Hstmts by (apply Hd; set_solver).
    pose proof (switch_loop_safe cases) as Hloop.
    specialize (Hloop ltac:(
      rewrite Forall_forall; intros c Hc m ->; apply Hbelow;
      by apply (deep_kid P stmts))).
    specialize (Hloop stmts
                  ((Node tok.SWITCH o a d [v; Some stmts], 1) :: up) 0
                  {[None]} false true).
    destruct (switch_loop _ _ _ _ _ _) as [[[e dflt] fallthru]|err];
      [|apply Hloop; unfold exit_reasons; set_solver].
    destruct Hloop as [He HNone]; [unfold exit_reasons; set_solver..|].
    rewrite set_remove_member by done. simpl.
    intros x. rewrite Hreasons.
    pose proof (He x) as Hx. rewrite Hreasons in Hx.
    repeat case_decide; destruct dflt, fallthru; set_solver.
  - (* tok.WITH *) by apply on_last_kid_safe.
  - (* tok.TRY *)
    destruct ks as [|t [|[[ck1 o1 a1 d1 ks1]|] [|f [|]]]]; simpl;
      try (by (simpl; unfold shape_error; auto)).
    destruct (bool_decide (ck1 = tok.RESERVED)); simpl;
      [|by (simpl; unfold shape_error; auto)].
    destruct ks1 as [|[[ck2 o2 a2 d2 ks2]|] [|]]; simpl;
      try (by (simpl; unfold shape_error; auto)).
    destruct (bool_decide (ck2 = tok.LEXICALSCOPE)); simpl;
      [|by (simpl; unfold shape_error; auto)].
    destruct ks2 as [|[[ck3 o3 a3 d3 ks3]|] [|]]; simpl;
      try (by (simpl; unfold shape_error; auto)).
    destruct (bool_decide (ck3 = tok.CATCH)); simpl;
      [|by (simpl; unfold shape_error; auto)].
    destruct ks3 as [|x [|y [|[cb|] [|]]]]; simpl;
      try (by (simpl; unfold shape_error; auto)).
    destruct (bool_decide (kind cb = tok.LC)); simpl;
      [|by (simpl; unfold shape_error; auto)].
    destruct t as [t|]; [|by (simpl; unfold shape_error; auto)].
    set (c3 := Node ck3 o3 a3 d3 [x; y; Some cb]) in *.
    set (c2 := Node ck2 o2 a2 d2 [Some c3]) in *.
    set (c1 := Node ck1 o1 a1 d1 [Some c2]) in *.
    set (n := Node tok.TRY o a d [Some t; Some c1; f]) in *.
    assert (deep P cb) as Hcb.
    { apply (deep_kid P c3); [|set_solver].
      apply (deep_kid P c2); [|set_solver].
      apply (deep_kid P c1); [|set_solver].
      apply Hd. set_solver. }
    pose proof (deep_here P t (Hd t ltac:(set_solver)) ((n, 0) :: up))
      as Hsafe.
    destruct (_get_exit_points t _) as [Et|err]; simpl in *; [|done].
    pose proof (deep_here P cb Hcb
                  ((c3, 2) :: (c2, 0) :: (c1, 0) :: (n, 1) :: up)) as Hsafe'.
    destruct (_get_exit_points cb _) as [Ec|err]; simpl in *; [|done].
    destruct f as [f|]; [|set_solver].
    pose proof (deep_here P f (Hd f ltac:(set_solver)) ((n, 2) :: up))
      as Hsafe''.
    destruct (_get_exit_points f _) as [Ef|err]; simpl in *; [|done].
    rewrite discard_difference. case_decide; simpl; set_solver.
Qed.

(** X1: when [_get_exit_points] raises, the exception is one of those
    for a tree of an unexpected shape; it never raises [KeyError], so the
    removal of [None] from the exit points of a [switch] always finds it,
    and it never raises a warning. *)
Theorem _get_exit_points_raises n up e :
  _get_exit_points n up = Raise e →
  shape_error e ∧ e ≠ KeyError ∧ ∀ target, e ≠ LintWarning target.
Proof.
  intros Hraise. pose proof (_get_exit_points_safe n up) as Hsafe.
  rewrite Hraise in Hsafe. simpl in Hsafe. split; [done|].
  unfold shape_error in Hsafe. naive_solver.
Qed.

Lemma _get_exit_points_raises_witness :
  let n := js_node tok.IF [Some (js_name "c"); Some js_return] in
  _get_exit_points n [] = Raise ValueError ∧
  (shape_error ValueError ∧ ValueError ≠ KeyError ∧
   ∀ target, ValueError ≠ LintWarning target).
Proof.
  intros n.
  assert (_get_exit_points n [] = Raise ValueError) as Hraise by reflexivity.
  split; [exact Hraise|].
  exact (_get_exit_points_raises n [] ValueError Hraise).
Defined.

(** X2: every member of a set that [_get_exit_points] returns is [None],
    [tok.BREAK], [tok.RETURN] or [tok.THROW]; no other kind, such as
    [tok.CONTINUE], is an exit point. *)
Theorem _get_exit_points_members n up E x :
  _get_exit_points n up = Ok E →
  x ∈ E →
  x = None ∨ x = Some tok.BREAK ∨ x = Some tok.RETURN ∨ x = Some tok.THROW.
Proof.
  intros HE Hx. pose proof (_get_exit_points_safe n up) as Hsafe.
  rewrite HE in Hsafe. simpl in Hsafe.
  apply Hsafe in Hx. unfold exit_reasons in Hx. set_solver.
Qed.

Lemma _get_exit_points_members_witness :
  let n := js_block [js_if (js_name "c") js_break None;
                     js_node tok.CONTINUE []] in
  (_get_exit_points n [] = Ok {[Some tok.BREAK; None]} ∧
   Some tok.BREAK ∈ ({[Some tok.BREAK; None]} : exit_set)) ∧
  (Some tok.BREAK = None ∨ Some tok.BREAK = Some tok.BREAK ∨
   Some tok.BREAK = Some tok.RETURN ∨ Some tok.BREAK = Some tok.THROW).
Proof.
  intros n.
  assert (_get_exit_points n [] = Ok {[Some tok.BREAK; None]}) as HE
    by (vm_compute; reflexivity).
  assert (Some tok.BREAK ∈ ({[Some tok.BREAK; None]} : exit_set)) as Hx
    by set_solver.
  split; [by split|].
  exact (_get_exit_points_members n [] _ _ HE Hx).
Defined.

(** X3: [tok.BREAK] is never among the exit points of a [switch]: a
    [break] in a case ends the [switch] and counts as falling through. *)
Theorem switch_absorbs_break o a d ks up E :
  _get_exit_points (Node tok.SWITCH o a d ks) up = Ok E →
  Some tok.BREAK ∉ E.
Proof.
  destruct ks as [|v [|[[sk so sa sd cases]|] [|]]]; simpl; try done.
  destruct (switch_loop _ _ _ _ _ _) as [[[e dflt] fallthru]|err];
    [|done].
  unfold set_remove. case_decide; simpl; [|done].
  intros [= <-].
  repeat case_decide; destruct dflt, fallthru; set_solver.
Qed.

Lemma switch_absorbs_break_witness :
  let ks := [Some (js_name "x");
             Some (js_block [js_case (js_number "1" 1%float) [js_break];
                             js_default [js_return]])] in
  _get_exit_points (Node tok.SWITCH op.NOP "" 0%float ks) [] =
    Ok {[Some tok.RETURN; None]} ∧
  Some tok.BREAK ∉ ({[Some tok.RETURN; None]} : exit_set).
Proof.
  intros ks.
  assert (_get_exit_points (Node tok.SWITCH op.NOP "" 0%float ks) [] =
          Ok {[Some tok.RETURN; None]}) as HE by (vm_compute; reflexivity).
  split; [exact HE|].
  exact (switch_absorbs_break op.NOP "" 0%float ks [] _ HE).
Defined.

(** X4: a [try] statement with a [finally] block falls through exactly
    when its [finally] block falls through and its [try] block or its
    [catch] block does. *)
Theorem try_finally_falls_through
    o a d o1 a1 d1 o2 a2 d2 o3 a3 d3 x y try_ catch_ finally_ up T C F :
  kind catch_ = tok.LC →
  _get_exit_points try_ [] = Ok T →
  _get_exit_points catch_ [] = Ok C →
  _get_exit_points finally_ [] = Ok F →
  ∃ E,
    _get_exit_points
      (Node tok.TRY o a d
         [Some try_;
          Some (Node tok.RESERVED o1 a1 d1
                  [Some (Node tok.LEXICALSCOPE o2 a2 d2
                           [Some (Node tok.CATCH o3 a3 d3
                                    [x; y; Some catch_])])]);
          Some finally_]) up = Ok E ∧
    (None ∈ E ↔ None ∈ F ∧ (None ∈ T ∨ None ∈ C)).
Proof.
  intros Hkind HT HC HF. eexists. split.
  { by apply try_finally_exit_points. }
  case_decide; set_solver.
Qed.

Lemma try_finally_falls_through_witness :
  let try_ := js_block [js_expr (js_call "f")] in
  let catch_ := js_block [js_return] in
  let finally_ := js_block [js_expr (js_call "g")] in
  (kind catch_ = tok.LC ∧
   _get_exit_points try_ [] = Ok {[None]} ∧
   _get_exit_points catch_ [] = Ok {[Some tok.RETURN]} ∧
   _get_exit_points finally_ [] = Ok {[None]}) ∧
  ∃ E,
    _get_exit_points
      (js_try [js_expr (js_call "f")] "e" [js_return] (Some finally_)) [] =
      Ok E ∧
    (None ∈ E ↔
     None ∈ ({[None]} : exit_set) ∧
     (None ∈ ({[None]} : exit_set) ∨
      None ∈ ({[Some tok.RETURN]} : exit_set))).
Proof.
  split; [repeat split; vm_compute; reflexivity|].
  refine (try_finally_falls_through op.NOP "" 0%float op.NOP "" 0%float
            op.NOP "" 0%float op.NOP "" 0%float
            (Some (js_name "e")) None
            (js_block [js_expr (js_call "f")]) (js_block [js_return])
            (js_block [js_expr (js_call "g")]) []
            ({[None]} : exit_set) {[Some tok.RETURN]} ({[None]} : exit_set)
            _ _ _ _);
    vm_compute; reflexivity.
Defined.

Lemma block_loop_app rec n up l1 l2 :
  ∀ i e,
    block_loop rec n up (l1 ++ l2) i e =
    e1 ← block_loop rec n up l1 i e;
    block_loop rec n up l2 (length l1 + i) e1.
Proof.
  induction l1 as [|[kid|] l1 IH]; intros i e; simpl; [done| |].
  - destruct (rec kid _); simpl; [|done].
    by rewrite IH, Nat.add_succ_r.
  - by rewrite IH, Nat.add_succ_r.
Qed.

(** X5: the analysis of a block stops at the first statement on which it
    raises: when the statements before [kid] have exit points and the
    analysis of [kid] raises [e], that of the block raises [e], whatever
    follows [kid]. *)
Theorem block_first_error o a d front kid rest sets e up :
  Forall2 (λ k E, slot_exit_points k = Ok E) front sets →
  _get_exit_points kid [] = Raise e →
  _get_exit_points (Node tok.LC o a d (front ++ Some kid :: rest)) up =
  Raise e.
Proof.
  intros Hfront Hkid. simpl. rewrite block_loop_app.
  rewrite (block_loop_exit_points front sets Hfront). simpl.
  by rewrite (_get_exit_points_up kid _ []), Hkid.
Qed.

Lemma block_first_error_witness :
  let kid := js_node tok.TRY
               [Some (js_block [js_expr (js_call "f")]); None;
                Some (js_block [js_expr (js_call "g")])] in
  let front := [Some (js_expr (js_call "a"))] in
  (Forall2 (λ k E, slot_exit_points k = Ok E) front [{[None]}] ∧
   _get_exit_points kid [] = Raise AttributeError) ∧
  _get_exit_points
    (Node tok.LC op.NOP "" 0%float (front ++ Some kid :: [Some js_return]))
    [] = Raise AttributeError.
Proof.
  intros kid front.
  assert (Forall2 (λ k E, slot_exit_points k = Ok E) front [{[None]}])
    as Hfront by repeat constructor.
  split; [split; [exact Hfront|reflexivity]|].
  exact (block_first_error op.NOP "" 0%float front kid [Some js_return]
           [{[None]}] AttributeError [] Hfront eq_refl).
Defined.

(** ** Every statement has a way out *)







Example elided_statement_no_exit :
  _get_exit_points (js_node tok.LC [Some (js_expr (js_call "f")); None]) [] =
  Ok ∅.
Proof. vm_compute. reflexivity. Qed.



(** ** The analysis reads kinds and slots only *)

Lemma skeleton_node k o a d ks :
  skeleton (Node k o a d ks) =
  Node k op.NOP "" 0%float (fmap (M:=option) skeleton <$> ks).
Proof.
  simpl. f_equal. induction ks as [|[kid|] ks IH]; simpl; by f_equal.
Qed.

Lemma block_loop_skeleton l :
  Forall skeleton_suffices l →
  ∀ n n' up up' i i' e,
    block_loop _get_exit_points n up (fmap (M:=option) skeleton <$> l) i e =
    block_loop _get_exit_points n' up' l i' e.
Proof.
  induction 1 as [|[kid|] l Hkid _ IH]; intros n n' up up' i i' e;
    simpl; [done| |by apply IH].
  rewrite (Hkid kid eq_refl ((n, i) :: up) ((n', i') :: up')).
  destruct (_get_exit_points kid _); simpl; [by apply IH|done].
Qed.

Lemma switch_loop_skeleton l :
  Forall (λ c, ∀ m, c = Some m → Forall skeleton_suffices (kids m)) l →
  ∀ s s' up up' i i' st,
    switch_loop _get_exit_points s up (fmap (M:=option) skeleton <$> l) i st =
    switch_loop _get_exit_points s' up' l i' st.
Proof.
  induction 1 as [|[c|] l Hc _ IH]; intros s s' up up' i i' st;
    [done| |done].
  specialize (Hc c eq_refl). destruct c as [ck co ca cd cks].
  rewrite fmap_cons. cbn [fmap option_fmap option_map].
  rewrite skeleton_node.
  destruct cks as [|v [|[body|] [|]]]; simpl in *; try done.
  destruct st as [[e dflt] fallthru].
  apply Forall_cons_1 in Hc as [_ [Hbody _]%Forall_cons_1].
  rewrite (Hbody body eq_refl _
             ((Node ck co ca cd [v; Some body], 1) :: (s', i') :: up')).
  destruct (_get_exit_points body _); simpl; [by apply IH|done].
Qed.

Lemma on_last_kid_skeleton l :
  Forall skeleton_suffices l →
  ∀ n n' up up' i i',
    on_last_kid _get_exit_points n up (fmap (M:=option) skeleton <$> l) i =
    on_last_kid _get_exit_points n' up' l i'.
Proof.
  induction 1 as [|kid l Hkid Hl IH]; intros n n' up up' i i'; [done|].
  destruct l as [|kid' l].
  - destruct kid as [kid|]; simpl; [|done]. by apply Hkid.
  - destruct kid; apply IH.
Qed.

Lemma _get_exit_points_skeleton n :
  ∀ up up', _get_exit_points (skeleton n) up = _get_exit_points n up'.
Proof.
  induction n as [k o a d ks IH] using node_deep_ind.
  set (P := λ n, ∀ up up',
              _get_exit_points (skeleton n) up = _get_exit_points n up')
    in IH.
  assert (∀ m, Some m ∈ ks → deep P m) as Hd.
  { intros m Hm. rewrite Forall_forall in IH. by apply (IH _ Hm). }
  assert (∀ n, deep P n → Forall skeleton_suffices (kids n)) as Hbelow.
  { intros n Hn. rewrite Forall_forall. intros x Hx m -> up up'.
    by apply (deep_here P m), (deep_kid P n). }
  assert (Forall skeleton_suffices ks) as Hks.
  { rewrite Forall_forall. intros x Hx m -> up up'.
    by apply (deep_here P m), Hd. }
  clear IH. intros up up'. rewrite skeleton_node.
  destruct k; try done.
  - (* tok.LC *) by apply block_loop_skeleton.
  - (* tok.IF *)
    destruct ks as [|c [|[t|] [|e [|]]]]; try done. simpl.
    apply Forall_cons_1 in Hks as [_ [Ht [He _]%Forall_cons_1]%Forall_cons_1].
    rewrite (Ht t eq_refl _ ((Node tok.IF o a d [c; Some t; e], 1) :: up')).
    destruct (_get_exit_points t _); simpl; [|done].
    destruct e as [e|]; [|done]. simpl.
    by rewrite (He e eq_refl _
                  ((Node tok.IF o a d [c; Some t; Some e], 2) :: up')).
  - (* tok.SWITCH *)
    destruct ks as [|v [|[[sk so sa sd cases]|] [|]]]; try done.
    cbn [fmap list_fmap option_fmap option_map].
    rewrite skeleton_node. simpl.
    rewrite (switch_loop_skeleton cases) with
      (s' := Node sk so sa sd cases)
      (up' := (Node tok.SWITCH o a d [v; Some (Node sk so sa sd cases)], 1)
                :: up') (i' := 0); [done|].
    rewrite Forall_forall. intros c Hc m ->. apply Hbelow.
    apply (deep_kid P (Node sk so sa sd cases)); [|done].
    apply Hd. set_solver.
  - (* tok.WITH *) by apply on_last_kid_skeleton.
  - (* tok.TRY *)
    destruct ks as [|t [|[[ck1 o1 a1 d1 ks1]|] [|f [|]]]]; try done.
    cbn [fmap list_fmap option_fmap option_map]. rewrite skeleton_node.
    simpl. destruct (bool_decide (ck1 = tok.RESERVED)); simpl; [|done].
    destruct ks1 as [|[[ck2 o2 a2 d2 ks2]|] [|]]; try done.
    cbn [fmap list_fmap option_fmap option_map]. rewrite skeleton_node.
    simpl. destruct (bool_decide (ck2 = tok.LEXICALSCOPE)); simpl; [|done].
    destruct ks2 as [|[[ck3 o3 a3 d3 ks3]|] [|]]; try done.
    cbn [fmap list_fmap option_fmap option_map]. rewrite skeleton_node.
    simpl. destruct (bool_decide (ck3 = tok.CATCH)); simpl; [|done].
    destruct ks3 as [|x [|y [|[cb|] [|]]]]; try done.
    cbn [fmap list_fmap option_fmap option_map].
    assert (kind (skeleton cb) = kind cb) as -> by (by destruct cb).
    destruct (bool_decide (kind cb = tok.LC)); simpl; [|done].
    destruct t as [t|]; [|done].
    cbn [fmap list_fmap option_fmap option_map].
    set (c3 := Node ck3 o3 a3 d3 [x; y; Some cb]).
    set (c2 := Node ck2 o2 a2 d2 [Some c3]).
    set (c1 := Node ck1 o1 a1 d1 [Some c2]).
    set (n := Node tok.TRY o a d [Some t; Some c1; f]).
    assert (deep P cb) as Hcb.
    { apply (deep_kid P c3); [|set_solver].
      apply (deep_kid P c2); [|set_solver].
      apply (deep_kid P c1); [|set_solver].
      apply Hd. set_solver. }
    rewrite (deep_here P t (Hd t ltac:(set_solver)) _ ((n, 0) :: up')).
    destruct (_get_exit_points t _); simpl; [|done].
    rewrite (deep_here P cb Hcb _
               ((c3, 2) :: (c2, 0) :: (c1, 0) :: (n, 1) :: up')).
    destruct (_get_exit_points cb _); simpl; [|done].
    destruct f as [f|]; [|done]. simpl.
    by rewrite (deep_here P f (Hd f ltac:(set_solver)) _ ((n, 2) :: up')).
Qed.

(** X7: [_get_exit_points] reads the kinds and the slots of a tree only:
    on two trees with the same skeleton, which may differ in every
    opcode, text and value, and under any ancestors, it returns the same
    result. *)
Theorem _get_exit_points_skeleton_only n n' up up' :
  skeleton n = skeleton n' →
  _get_exit_points n up = _get_exit_points n' up'.
Proof.
  intros Hskeleton.
  rewrite <- (_get_exit_points_skeleton n up up).
  rewrite <- (_get_exit_points_skeleton n' up up').
  by rewrite Hskeleton.
Qed.

Lemma _get_exit_points_skeleton_only_witness :
  let n := js_block [js_if (js_name "a") js_break None;
                     js_throw (js_name "e")] in
  let n' := js_block [js_if (js_name "b") js_break None;
                      js_throw (Node tok.NAME op.CALL "f" 1%float [])] in
  (skeleton n = skeleton n' ∧ n ≠ n') ∧
  _get_exit_points n [] = _get_exit_points n' [(js_block [n'], 0)].
Proof.
  intros n n'. split; [split; [reflexivity|done]|].
  exact (_get_exit_points_skeleton_only n n' [] [(js_block [n'], 0)] eq_refl).
Defined.

(** ** Missing break in the last case *)

(** X8: on a case that is not in the last slot of its parent,
    [missing_break_for_last_case] returns without a warning; on a case in
    the last slot whose body is a block with the exit points [E], it
    raises a warning on the case itself exactly when [None] is in [E].
    Unlike [missing_break], it does not pass over an empty body. *)
Theorem missing_break_for_last_case_finding c pn i up body E :
  kids c !! 1 = Some (Some body) →
  kind body = tok.LC →
  _get_exit_points body [] = Ok E →
  missing_break_for_last_case (NodeObj c ((pn, i) :: up)) =
  if decide (S i < length (kids pn)) then Ok tt
  else if decide (None ∈ E)
       then Raise (LintWarning (Some (NodeObj c ((pn, i) :: up))))
       else Ok tt.
Proof.
  intros Hbody Hkind HE. unfold missing_break_for_last_case. simpl.
  case_bool_decide as Hlast.
  - rewrite decide_True by lia. done.
  - rewrite decide_False by lia.
    rewrite Hbody, Hkind. simpl.
    by rewrite (_get_exit_points_up body _ []), HE.
Qed.

Lemma missing_break_for_last_case_finding_witness :
  let c := js_case (js_number "2" 2%float) [] in
  let pn := js_block [js_case (js_number "1" 1%float) [js_break]; c] in
  (kids c !! 1 = Some (Some (js_block [])) ∧
   kind (js_block []) = tok.LC ∧
   _get_exit_points (js_block []) [] = Ok {[None]}) ∧
  missing_break_for_last_case (NodeObj c [(pn, 1)]) =
    Raise (LintWarning (Some (NodeObj c [(pn, 1)]))).
Proof.
  intros c pn. split; [repeat split; vm_compute; reflexivity|].
  refine (eq_trans
            (missing_break_for_last_case_finding c pn 1 [] (js_block [])
               {[None]} _ _ _) _);
    vm_compute; reflexivity.
Defined.

(** X9: [missing_break] and [missing_break_for_last_case], which are
    registered under the same keys, never both raise a warning on one
    node. *)
Theorem missing_break_warnings_exclusive node target target' :
  missing_break node = Raise (LintWarning target) →
  missing_break_for_last_case node = Raise (LintWarning target') →
  False.
Proof.
  unfold missing_break, missing_break_for_last_case.
  destruct (parent node) as [p|]; [|done].
  destruct (node_index node) as [i|]; [|done].
  case_bool_decide as Hlast; [done|].
  destruct (kids (focus node) !! 1) as [[body|]|]; [|done..].
  unfold py_assert.
  destruct (bool_decide (kind body = tok.LC)); simpl; [|done].
  destruct (bool_decide (kids body = [])); [done|].
  pose proof (_get_exit_points_safe body ((focus node, 1) :: above node))
    as Hsafe.
  destruct (_get_exit_points body _) as [E|e]; simpl in *;
    [|unfold shape_error in Hsafe; naive_solver].
  case_decide; [|done].
  destruct (kids (focus p) !! S i) as [next|] eqn:Hnext; [|done].
  apply lookup_lt_Some in Hnext.
  intros _. by rewrite bool_decide_eq_true_2 by lia.
Qed.

Lemma missing_break_warnings_exclusive_witness :
  let c := js_case (js_number "1" 1%float) [js_expr (js_call "a")] in
  let next := js_case (js_number "2" 2%float) [js_break] in
  let node := NodeObj c [(js_block [c; next], 0)] in
  missing_break node =
    Raise (LintWarning (Some (NodeObj next [(js_block [c; next], 1)]))) ∧
  missing_break_for_last_case node = Ok tt ∧
  ∀ target',
    missing_break_for_last_case node = Raise (LintWarning target') → False.
Proof.
  intros c next node.
  assert (missing_break node =
          Raise (LintWarning (Some (NodeObj next [(js_block [c; next], 1)]))))
    as Hwarn by (vm_compute; reflexivity).
  split; [exact Hwarn|]. split; [vm_compute; reflexivity|].
  intros target'.
  exact (missing_break_warnings_exclusive node _ target' Hwarn).
Defined.

(** ** Warnings on a switch and its exit points *)

Lemma switch_loop_app rec s up l1 l2 :
  ∀ i st,
    switch_loop rec s up (l1 ++ l2) i st =
    st1 ← switch_loop rec s up l1 i st;
    switch_loop rec s up l2 (length l1 + i) st1.
Proof.
  induction l1 as [|[c|] l1 IH]; intros i st; simpl; [done| |done].
  destruct c as [ck co ca cd [|v [|[body|] [|]]]]; simpl; try done.
  destruct st as [[e dflt] fallthru].
  destruct (rec body _); simpl; [|done].
  by rewrite IH, Nat.add_succ_r.
Qed.

Lemma switch_loop_default rec l :
  ∀ s up i e dflt fallthru e' dflt' fallthru',
    switch_loop rec s up l i (e, dflt, fallthru) =
      Ok (e', dflt', fallthru') →
    dflt' = dflt || existsb is_default l.
Proof.
  induction l as [|[c|] l IH];
    intros s up i e dflt fallthru e' dflt' fallthru'; simpl;
    [intros [= _ <- _]; by rewrite orb_false_r| |done].
  destruct c as [ck co ca cd [|v [|[body|] [|]]]]; simpl; try done.
  destruct (rec body _); simpl; [|done].
  intros ->%IH. rewrite <- orb_assoc. f_equal. f_equal.
  unfold is_default. simpl. apply bool_decide_ext. naive_solver.
Qed.

(** X10: when [missing_break_for_last_case] raises a warning on the last
    case of a [switch], [None] is among the exit points of the [switch]:
    the statement falls through. *)
Theorem last_case_warning_falls_through
    o a d v sk so sa sd front c up up' target E :
  missing_break_for_last_case
    (NodeObj c
       ((Node sk so sa sd (front ++ [Some c]), length front)
          :: (Node tok.SWITCH o a d
                [v; Some (Node sk so sa sd (front ++ [Some c]))], 1)
          :: up)) = Raise (LintWarning target) →
  _get_exit_points
    (Node tok.SWITCH o a d [v; Some (Node sk so sa sd (front ++ [Some c]))])
    up' = Ok E →
  None ∈ E.
Proof.
  unfold missing_break_for_last_case. simpl.
  rewrite bool_decide_eq_false_2 by (rewrite length_app; simpl; lia).
  destruct c as [ck co ca cd cks]. simpl.
  destruct cks as [|cv [|[body|] cks]]; simpl; try done.
  unfold py_assert. destruct (bool_decide (kind body = tok.LC)); [|done].
  simpl. rewrite (_get_exit_points_up body _ []).
  pose proof (_get_exit_points_safe body []) as Hsafe.
  destruct (_get_exit_points body []) as [Eb|e] eqn:Hbody; simpl in *;
    [|unfold shape_error in Hsafe; naive_solver].
  case_decide as HNone; [|done]. intros _.
  rewrite switch_loop_app.
  destruct (switch_loop _ _ _ front _ _) as [[[e1 d1] f1]|]; simpl; [|done].
  destruct cks as [|]; [|done].
  rewrite (_get_exit_points_up body _ []), Hbody. simpl.
  rewrite bool_decide_eq_true_2 by done.
  unfold set_remove. case_decide; simpl; [|done].
  intros [= <-]. set_solver.
Qed.

Lemma last_case_warning_falls_through_witness :
  let c := js_default [js_expr (js_call "g")] in
  let front := [Some (js_case (js_number "1" 1%float) [js_return])] in
  let stmts := Node tok.LC op.NOP "" 0%float (front ++ [Some c]) in
  let sw := Node tok.SWITCH op.NOP "" 0%float
              [Some (js_name "x"); Some stmts] in
  let node := NodeObj c [(stmts, length front); (sw, 1)] in
  (missing_break_for_last_case node = Raise (LintWarning (Some node)) ∧
   _get_exit_points sw [] = Ok {[Some tok.RETURN; None]}) ∧
  None ∈ ({[Some tok.RETURN; None]} : exit_set).
Proof.
  intros c front stmts sw node.
  assert (missing_break_for_last_case node = Raise (LintWarning (Some node)))
    as Hwarn by (vm_compute; reflexivity).
  assert (_get_exit_points sw [] = Ok {[Some tok.RETURN; None]}) as HE
    by (vm_compute; reflexivity).
  split; [by split|].
  exact (last_case_warning_falls_through op.NOP "" 0%float
           (Some (js_name "x")) tok.LC op.NOP "" 0%float front c [] []
           (Some node) _ Hwarn HE).
Defined.

Lemma missing_default_case_loop_warns l node target :
  missing_default_case_loop l node = Raise (LintWarning target) →
  existsb is_default l = false ∧ target = Some node.
Proof.
  induction l as [|[c|] l IH]; simpl; [by intros [= <-]| |done].
  unfold is_default at 1. simpl.
  destruct (decide (kind c = tok.DEFAULT)) as [Hc|Hc].
  - by rewrite bool_decide_eq_true_2.
  - rewrite bool_decide_eq_false_2 by done.
    rewrite bool_decide_eq_false_2 by naive_solver. done.
Qed.

(** X11: on a [switch] whose case slots are all there,
    [missing_default_case] raises a warning on the [switch] exactly when
    none of the cases is a [default]. *)
Theorem missing_default_case_finding node value cases :
  kids (focus node) = [value; Some cases] →
  Forall (λ c, is_Some c) (kids cases) →
  missing_default_case node =
  if existsb is_default (kids cases) then Ok tt
  else Raise (LintWarning (Some node)).
Proof.
  intros Hkids Hcases. unfold missing_default_case. rewrite Hkids.
  induction Hcases as [|c l [m ->] _ IH]; [done|].
  simpl. unfold is_default at 1. simpl.
  destruct (decide (kind m = tok.DEFAULT)) as [Hm|Hm].
  - by rewrite !bool_decide_eq_true_2 by (by rewrite ?Hm).
  - rewrite bool_decide_eq_false_2 by done.
    rewrite bool_decide_eq_false_2 by naive_solver. done.
Qed.

Lemma missing_default_case_finding_witness :
  let cases := js_block [js_case (js_number "1" 1%float) [js_break]] in
  let node := NodeObj (js_node tok.SWITCH [Some (js_name "x"); Some cases])
                [] in
  (kids (focus node) = [Some (js_name "x"); Some cases] ∧
   Forall (λ c, is_Some c) (kids cases)) ∧
  missing_default_case node = Raise (LintWarning (Some node)).
Proof.
  intros cases node.
  assert (Forall (λ c, is_Some c) (kids cases)) as Hcases
    by (repeat constructor; by eexists).
  split; [by split|].
  exact (missing_default_case_finding node (Some (js_name "x")) cases
           eq_refl Hcases).
Defined.

(** X12: when [missing_default_case] raises a warning on a [switch],
    [None] is among the exit points of the [switch]. *)
Theorem missing_default_falls_through sw up up' target E :
  kind sw = tok.SWITCH →
  missing_default_case (NodeObj sw up) = Raise (LintWarning target) →
  _get_exit_points sw up' = Ok E →
  None ∈ E.
Proof.
  destruct sw as [k o a d ks]. simpl. intros ->.
  unfold missing_default_case. simpl.
  destruct ks as [|v [|[[sk so sa sd cases]|] [|]]]; try done. simpl.
  intros [Hdflt _]%missing_default_case_loop_warns.
  destruct (switch_loop _ _ _ _ _ _) as [[[e dflt] fallthru]|] eqn:Hloop;
    [|done].
  apply switch_loop_default in Hloop. rewrite Hdflt in Hloop.
  simpl in Hloop. subst dflt.
  unfold set_remove. case_decide; simpl; [|done].
  intros [= <-]. destruct fallthru; set_solver.
Qed.

Lemma missing_default_falls_through_witness :
  let sw := js_switch (js_name "x")
              [js_case (js_number "1" 1%float) [js_return]] in
  (kind sw = tok.SWITCH ∧
   missing_default_case (NodeObj sw []) =
     Raise (LintWarning (Some (NodeObj sw []))) ∧
   _get_exit_points sw [] = Ok {[Some tok.RETURN; None]}) ∧
  None ∈ ({[Some tok.RETURN; None]} : exit_set).
Proof.
  intros sw.
  assert (missing_default_case (NodeObj sw []) =
          Raise (LintWarning (Some (NodeObj sw [])))) as Hwarn
    by (vm_compute; reflexivity).
  assert (_get_exit_points sw [] = Ok {[Some tok.RETURN; None]}) as HE
    by (vm_compute; reflexivity).
  split; [by repeat split|].
  exact (missing_default_falls_through sw [] [] _ _ eq_refl Hwarn HE).
Defined.

(** ** Warnings on the next sibling *)

(** X13: a warning of [default_not_at_end], [unreachable_code] or
    [missing_break] on the node in the slot [i] of [p] is on the slot
    [i + 1] of [p], which is there: these functions flag the next sibling
    and never the node itself, and a node in the last slot gets no
    warning. *)
Theorem warnings_on_next_sibling node target :
  default_not_at_end node = Raise (LintWarning target) ∨
  unreachable_code node = Raise (LintWarning target) ∨
  missing_break node = Raise (LintWarning target) →
  ∃ p i next,
    parent node = Some p ∧ node_index node = Some i ∧
    kids (focus p) !! S i = Some next ∧
    target = kid_obj p (S i) next.
Proof.
  unfold default_not_at_end, unreachable_code, missing_break.
  destruct (parent node) as [p|]; [|naive_solver].
  destruct (node_index node) as [i|]; [|naive_solver].
  intros Hwarn. exists p, i.
  destruct (kids (focus p) !! S i) as [next|] eqn:Hnext.
  - exists next. do 3 (split; [done|]).
    destruct Hwarn as [Hwarn|[Hwarn|Hwarn]].
    + case_bool_decide; [|done].
      destruct next; simpl in Hwarn; [by injection Hwarn|done].
    + destruct (_ && _); [|done].
      destruct next; simpl in Hwarn; [by injection Hwarn|done].
    + case_bool_decide; [done|].
      destruct (kids (focus node) !! 1) as [[body|]|]; [|done..].
      unfold py_assert in Hwarn.
      destruct (bool_decide (kind body = tok.LC)); simpl in Hwarn; [|done].
      destruct (bool_decide (kids body = [])); [done|].
      pose proof (_get_exit_points_safe body
                    ((focus node, 1) :: above node)) as Hsafe.
      destruct (_get_exit_points body _) as [E|e]; simpl in *.
      * case_decide; [|done].
        destruct next; simpl in Hwarn; [by injection Hwarn|done].
      * unfold shape_error in Hsafe. naive_solver.
  - exfalso. destruct Hwarn as [Hwarn|[Hwarn|Hwarn]].
    + by case_bool_decide.
    + by destruct (_ && _).
    + case_bool_decide; [done|].
      destruct (kids (focus node) !! 1) as [[body|]|]; [|done..].
      unfold py_assert in Hwarn.
      destruct (bool_decide (kind body = tok.LC)); simpl in Hwarn; [|done].
      destruct (bool_decide (kids body = [])); [done|].
      pose proof (_get_exit_points_safe body
                    ((focus node, 1) :: above node)) as Hsafe.
      destruct (_get_exit_points body _) as [E|e]; simpl in *.
      * by case_decide.
      * unfold shape_error in Hsafe. naive_solver.
Qed.

Lemma warnings_on_next_sibling_witness :
  let block := js_block [js_return; js_expr (js_call "f")] in
  let node := NodeObj js_return [(block, 0)] in
  let next := NodeObj (js_expr (js_call "f")) [(block, 1)] in
  unreachable_code node = Raise (LintWarning (Some next)) ∧
  ∃ p i slot,
    parent node = Some p ∧ node_index node = Some i ∧
    kids (focus p) !! S i = Some slot ∧
    Some next = kid_obj p (S i) slot.
Proof.
  intros block node next.
  assert (unreachable_code node = Raise (LintWarning (Some next))) as Hwarn
    by (vm_compute; reflexivity).
  split; [exact Hwarn|].
  exact (warnings_on_next_sibling node (Some next)
           (or_intror (or_introl Hwarn))).
Defined.

(** ** Increments and commas in the head of a for *)

Lemma above_commas_stops cs :
  ∀ tmp p idx up,
    Forall (λ c : node * nat, kind c.1 = tok.COMMA) cs →
    kind p ≠ tok.COMMA →
    above (above_commas tmp (cs ++ (p, idx) :: up)) = (p, idx) :: up.
Proof.
  induction cs as [|[c j] cs IH]; intros tmp p idx up Hcs Hp; simpl.
  - by rewrite bool_decide_eq_false_2.
  - apply Forall_cons_1 in Hcs as [Hc Hcs]. simpl in Hc.
    rewrite bool_decide_eq_true_2 by done. by apply IH.
Qed.

(** X14: [inc_dec_within_stmt] returns without a warning on an increment
    or decrement that is the third part of the head of a [for], or that is
    under commas in it, as in [for (;; i++, j--)]. Under commas that are
    under a node of another kind or in another slot it raises a warning
    on the increment, as it does without commas under a node that is
    not an expression statement. *)
Theorem inc_dec_within_stmt_in_for (o : nodeobj) cs p idx up :
  above o = cs ++ (p, idx) :: up →
  Forall (λ c : node * nat, kind c.1 = tok.COMMA) cs →
  kind p ≠ tok.COMMA →
  (cs = [] → kind p ≠ tok.SEMI) →
  (idx = 2 → kind p = tok.RESERVED →
   ∀ g j up', up = (g, j) :: up' → kind g = tok.FOR →
   inc_dec_within_stmt o = Ok tt) ∧
  (idx ≠ 2 ∨ kind p ≠ tok.RESERVED →
   inc_dec_within_stmt o = Raise (LintWarning (Some o))).
Proof.
  intros Habove Hcs Hp Hsemi. unfold inc_dec_within_stmt, parent.
  rewrite Habove, above_commas_stops by done.
  assert (match cs ++ (p, idx) :: up with
          | [] => tok.LC
          | (q, _) :: _ => kind q
          end ≠ tok.SEMI) as Hparent.
  { destruct cs as [|[c j] cs]; simpl; [by apply Hsemi|].
    apply Forall_cons_1 in Hcs as [Hc _]. simpl in Hc. by rewrite Hc. }
  destruct (cs ++ (p, idx) :: up) as [|[q j] rest] eqn:Hrest.
  { by destruct cs. }
  simpl. rewrite bool_decide_eq_false_2 by done. split.
  - intros -> Hkind g j' up' -> Hg.
    by rewrite !bool_decide_eq_true_2.
  - intros [Hidx|Hkind].
    + by destruct idx as [|[|[|idx]]].
    + destruct idx as [|[|[|idx]]]; try done.
      by rewrite bool_decide_eq_false_2.
Qed.

Lemma inc_dec_within_stmt_in_for_witness :
  let inc := js_node tok.INC [Some (js_name "i")] in
  let dec := js_node tok.DEC [Some (js_name "j")] in
  let comma := js_node tok.COMMA [Some inc; Some dec] in
  let head := js_node tok.RESERVED [None; None; Some comma] in
  let loop := js_node tok.FOR [Some head; Some (js_block [])] in
  let o := NodeObj dec [(comma, 1); (head, 2); (loop, 0)] in
  (above o = [(comma, 1)] ++ (head, 2) :: [(loop, 0)] ∧
   Forall (λ c : node * nat, kind c.1 = tok.COMMA) [(comma, 1)] ∧
   kind head ≠ tok.COMMA ∧
   ([(comma, 1)] = [] → kind head ≠ tok.SEMI)) ∧
  inc_dec_within_stmt o = Ok tt.
Proof.
  intros inc dec comma head loop o.
  assert (Forall (λ c : node * nat, kind c.1 = tok.COMMA) [(comma, 1)])
    as Hcs by repeat constructor.
  assert (kind head ≠ tok.COMMA) as Hhead by done.
  assert ([(comma, 1)] = [] → kind head ≠ tok.SEMI) as Hsemi by done.
  split; [by repeat split|].
  exact (proj1 (inc_dec_within_stmt_in_for o [(comma, 1)] head 2
                  [(loop, 0)] eq_refl Hcs Hhead Hsemi)
           eq_refl eq_refl loop 0 [] eq_refl eq_refl).
Defined.

(** X15: [comma_separated_stmts] returns without a warning on a comma
    that is the first or the third part of the head of a [for] or a slot
    of an array literal; it raises a warning on a comma that is the
    second part of the head of a [for], and on one under a node of
    another kind. *)
Theorem comma_separated_stmts_finding (o : nodeobj) p i up :
  above o = (p, i) :: up →
  (kind p = tok.RESERVED →
   ∀ g j up', up = (g, j) :: up' → kind g = tok.FOR →
   comma_separated_stmts o =
   if bool_decide (i = 0 ∨ i = 2) then Ok tt
   else Raise (LintWarning (Some o))) ∧
  (kind p = tok.RB → comma_separated_stmts o = Ok tt) ∧
  (kind p ≠ tok.RESERVED → kind p ≠ tok.RB →
   comma_separated_stmts o = Raise (LintWarning (Some o))).
Proof.
  intros Habove.
  unfold comma_separated_stmts, _get_branch_in_for, parent, node_index.
  rewrite Habove. simpl. split; [|split].
  - intros Hp g j up' -> Hg. simpl.
    rewrite (bool_decide_eq_true_2 (kind p = tok.RESERVED)) by done.
    rewrite (bool_decide_eq_true_2 (kind g = tok.FOR)) by done. simpl.
    destruct (decide (i = 0 ∨ i = 2)) as [Hi|Hi].
    + rewrite (bool_decide_eq_true_2 (Some i ∈ _))
        by (rewrite !elem_of_cons, elem_of_nil; naive_solver).
      by rewrite (bool_decide_eq_true_2 (i = 0 ∨ i = 2)).
    + rewrite (bool_decide_eq_false_2 (Some i ∈ _))
        by (rewrite !elem_of_cons, elem_of_nil; naive_solver).
      rewrite (bool_decide_eq_false_2 (i = 0 ∨ i = 2)) by done.
      by rewrite bool_decide_eq_false_2 by (by rewrite Hp).
  - intros Hp.
    rewrite (bool_decide_eq_false_2 (kind p = tok.RESERVED))
      by (by rewrite Hp).
    simpl. by rewrite bool_decide_eq_true_2.
  - intros Hp Hp'.
    rewrite (bool_decide_eq_false_2 (kind p = tok.RESERVED)) by done.
    simpl. by rewrite bool_decide_eq_false_2.
Qed.

Lemma comma_separated_stmts_finding_witness :
  let comma := js_node tok.COMMA [Some (js_name "a"); Some (js_name "b")] in
  let head := js_node tok.RESERVED [None; Some comma; None] in
  let loop := js_node tok.FOR [Some head; Some (js_block [])] in
  let o := NodeObj comma [(head, 1); (loop, 0)] in
  (above o = (head, 1) :: [(loop, 0)] ∧ kind head = tok.RESERVED ∧
   kind loop = tok.FOR) ∧
  comma_separated_stmts o = Raise (LintWarning (Some o)).
Proof.
  intros comma head loop o. split; [by repeat split|].
  exact (proj1 (comma_separated_stmts_finding o head 1 [(loop, 0)] eq_refl)
           eq_refl loop 0 [] eq_refl eq_refl).
Defined.

(** ** Statements without braces *)

(** X16: when [ambiguous_nested_stmt] raises a warning on an [if],
    [while], [do], [for] or [with] statement that is the slot 1 of its
    parent, the parent is of one of these five kinds, under which
    [block_without_braces] is registered, and [block_without_braces]
    raises a warning on the parent; that warning is on the same
    statement. *)
Theorem nested_stmt_without_braces (o : nodeobj) pn up target :
  kind (focus o) ∈ _block_nodes →
  above o = (pn, 1) :: up →
  kids pn !! 1 = Some (Some (focus o)) →
  ambiguous_nested_stmt o = Raise (LintWarning target) →
  kind pn ∈ _block_nodes ∧
  block_without_braces (NodeObj pn up) = Raise (LintWarning (Some o)).
Proof.
  intros Hkind Habove Hslot Hwarn. split.
  - unfold ambiguous_nested_stmt, parent, node_index in Hwarn.
    rewrite Habove in Hwarn. simpl in Hwarn.
    rewrite andb_false_r in Hwarn. simpl in Hwarn.
    by case_bool_decide.
  - unfold block_without_braces. simpl.
    rewrite Hslot. rewrite bool_decide_eq_true_2.
    + unfold raise_warning, kid_obj. simpl. rewrite <- Habove.
      by destruct o.
    + intros Hblock. rewrite Hblock in Hkind. unfold _block_nodes in Hkind.
      rewrite !elem_of_cons, elem_of_nil in Hkind. naive_solver.
Qed.

Lemma nested_stmt_without_braces_witness :
  let inner := js_node tok.WHILE [Some (js_name "b");
                                  Some (js_expr (js_call "f"))] in
  let outer := js_if (js_name "a") inner None in
  let o := NodeObj inner [(outer, 1)] in
  (kind (focus o) ∈ _block_nodes ∧
   above o = (outer, 1) :: [] ∧
   kids outer !! 1 = Some (Some (focus o)) ∧
   ambiguous_nested_stmt o = Raise (LintWarning (Some o))) ∧
  kind outer ∈ _block_nodes ∧
  block_without_braces (NodeObj outer []) = Raise (LintWarning (Some o)).
Proof.
  intros inner outer o.
  assert (kind (focus o) ∈ _block_nodes) as Hkind.
  { unfold _block_nodes. simpl. rewrite !elem_of_cons. auto. }
  assert (ambiguous_nested_stmt o = Raise (LintWarning (Some o))) as Hwarn
    by (vm_compute; reflexivity).
  split; [by repeat split|].
  exact (nested_stmt_without_braces o outer [] (Some o) Hkind eq_refl
           eq_refl Hwarn).
Defined.

(** ** Empty cases *)

(** X17: on a case or a default with an empty body that is followed by
    another slot, as [case 1:] in [case 1: case 2: f();], the three
    functions that read the body return without a warning:
    [missing_break] and [missing_break_for_last_case] on the case and
    [empty_statement_] on its body. Other functions do warn there: on a
    default, [default_not_at_end] raises a warning on the node in the
    next slot. *)
Theorem empty_case_body_is_ignored ck co ca cd v bo ba bd pn i up next :
  ck = tok.CASE ∨ ck = tok.DEFAULT →
  kids pn !! S i = Some next →
  let body := Node tok.LC bo ba bd [] in
  let c := Node ck co ca cd [v; Some body] in
  missing_break (NodeObj c ((pn, i) :: up)) = Ok tt ∧
  missing_break_for_last_case (NodeObj c ((pn, i) :: up)) = Ok tt ∧
  empty_statement_ (NodeObj body ((c, 1) :: (pn, i) :: up)) = Ok tt ∧
  (ck = tok.DEFAULT → ∀ sibling, next = Some sibling →
   default_not_at_end (NodeObj c ((pn, i) :: up)) =
   Raise (LintWarning (Some (NodeObj sibling ((pn, S i) :: up))))).
Proof.
  intros Hck Hnext body c.
  apply lookup_lt_Some in Hnext as Hlt. repeat split.
  - unfold missing_break. simpl.
    by rewrite bool_decide_eq_false_2 by lia.
  - unfold missing_break_for_last_case. simpl.
    by rewrite bool_decide_eq_true_2 by lia.
  - unfold empty_statement_. simpl.
    rewrite bool_decide_eq_true_2; [done|].
    rewrite !elem_of_cons. naive_solver.
  - intros _ sibling ->. unfold default_not_at_end. simpl.
    rewrite bool_decide_eq_true_2 by lia. by rewrite Hnext.
Qed.

Lemma empty_case_body_is_ignored_witness :
  let body := Node tok.LC op.NOP "" 0%float [] in
  let c := Node tok.DEFAULT op.NOP "" 0%float [None; Some body] in
  let next := js_case (js_number "2" 2%float) [js_expr (js_call "f")] in
  let pn := js_block [c; next] in
  ((tok.DEFAULT = tok.CASE ∨ tok.DEFAULT = tok.DEFAULT) ∧
   kids pn !! 1 = Some (Some next)) ∧
  missing_break (NodeObj c [(pn, 0)]) = Ok tt ∧
  missing_break_for_last_case (NodeObj c [(pn, 0)]) = Ok tt ∧
  empty_statement_ (NodeObj body [(c, 1); (pn, 0)]) = Ok tt ∧
  default_not_at_end (NodeObj c [(pn, 0)]) =
    Raise (LintWarning (Some (NodeObj next [(pn, 1)]))).
Proof.
  intros body c next pn. split; [split; [by right|reflexivity]|].
  destruct (empty_case_body_is_ignored tok.DEFAULT op.NOP "" 0%float None
              op.NOP "" 0%float pn 0 [] (Some next)
              (or_intror eq_refl) eq_refl)
    as (Hbreak & Hlast & Hempty & Hdefault).
  do 3 (split; [assumption|]).
  exact (Hdefault eq_refl next eq_refl).
Defined.

(** ** The table of the registered functions *)

Lemma make_visitors_fold vis key :
  ∀ m : gmap trigger (list string),
    foldl (λ visitors '(kind, func),
             match visitors !! kind with
             | Some funcs => <[kind := funcs ++ [func]]> visitors
             | None => <[kind := [func]]> visitors
             end) m vis !! key =
    match m !! key, registered_under key vis with
    | None, [] => None
    | None, fns => Some fns
    | Some funcs, fns => Some (funcs ++ fns)
    end.
Proof.
  unfold registered_under.
  induction vis as [|[k fn] vis IH]; intros m.
  - simpl. destruct (m !! key); [by rewrite app_nil_r|done].
  - cbn [foldl]. rewrite IH. rewrite filter_cons. simpl.
    destruct (decide (k = key)) as [->|Hk].
    + destruct (m !! key) as [funcs|] eqn:Hm.
      * rewrite lookup_insert_eq. simpl. by rewrite <- app_assoc.
      * rewrite lookup_insert_eq. done.
    + destruct (m !! k) as [funcs|];
        by rewrite lookup_insert_ne by done.
Qed.

(** X18: the table that [make_visitors] builds has, under a key, the
    functions that were entered with this key, in the order in which they
    were entered; a key with which no function was entered is not in the
    table. *)
Theorem make_visitors_lookup vis key :
  make_visitors vis !! key =
  match registered_under key vis with
  | [] => None
  | fns => Some fns
  end.
Proof. unfold make_visitors. by rewrite make_visitors_fold, lookup_empty. Qed.

Lemma load_inv decls :
  ∀ vis vis',
    load decls vis = Ok vis' →
    Forall (λ d, warning_of d.2 ∈ dom warnings) decls ∧
    vis' = vis ++ entries decls.
Proof.
  induction decls as [|[args fn] decls IH]; intros vis vis'; cbn [load].
  - intros [= <-]. split; [done|]. unfold entries. cbn [mbind list_bind].
    by rewrite app_nil_r.
  - destruct (decide (warning_of fn ∈ dom warnings)) as [Hfn|Hfn].
    + rewrite lookfor_found by done. cbn [mbind result_bind].
      intros [Hdecls ->]%IH. split; [by constructor|].
      unfold entries. cbn [mbind list_bind fst snd]. by rewrite app_assoc.
    + by rewrite lookfor_missing.
Qed.

(** X19: after a module has loaded, every function in the table of
    [make_visitors] has its warning in [warnings]: a warning that a
    registered function raises always has a message. *)
Theorem registered_functions_have_messages decls vis key fns fn :
  load decls [] = Ok vis →
  make_visitors vis !! key = Some fns →
  fn ∈ fns →
  is_Some (warnings !! warning_of fn).
Proof.
  intros [Hdecls ->]%load_inv Hkey Hfn. apply elem_of_dom.
  rewrite make_visitors_lookup, app_nil_l in Hkey.
  assert (fn ∈ registered_under key (entries decls)) as Hin.
  { destruct (registered_under key (entries decls)); [done|].
    by injection Hkey as ->. }
  unfold registered_under in Hin.
  apply list_elem_of_fmap in Hin as ([k fn'] & -> & Hin).
  apply list_elem_of_filter in Hin as [_ Hin]. cbn [snd].
  unfold entries in Hin. apply list_elem_of_bind in Hin as (d & Hin & Hd).
  apply list_elem_of_fmap in Hin as (arg & [= _ ->] & _).
  rewrite Forall_forall in Hdecls. by apply Hdecls.
Qed.

Lemma registered_functions_have_messages_witness :
  let decls := [([Kind tok.LC], "empty_statement_");
                ([Kind tok.LC], "meaningless_block__")] in
  let vis := [(Kind tok.LC, "empty_statement_");
              (Kind tok.LC, "meaningless_block__")] in
  (load decls [] = Ok vis ∧
   make_visitors vis !! Kind tok.LC =
     Some ["empty_statement_"; "meaningless_block__"] ∧
   "meaningless_block__" ∈ ["empty_statement_"; "meaningless_block__"]) ∧
  is_Some (warnings !! warning_of "meaningless_block__").
Proof.
  intros decls vis.
  assert (load decls [] = Ok vis) as Hload by (vm_compute; reflexivity).
  assert (make_visitors vis !! Kind tok.LC =
          Some ["empty_statement_"; "meaningless_block__"]) as Hkey
    by (vm_compute; reflexivity).
  assert ("meaningless_block__" ∈ ["empty_statement_"; "meaningless_block__"])
    as Hfn by (rewrite !elem_of_cons; auto).
  split; [by repeat split|].
  exact (registered_functions_have_messages decls vis (Kind tok.LC) _ _
           Hload Hkey Hfn).
Defined.

(** ** Names with underscores at the end *)

Lemma rstrip_underscores_all k : rstrip_underscores (underscores k) = "".
Proof. induction k as [|k IH]; [done|]. simpl. by rewrite IH. Qed.

(** X20: [lookfor] takes the underscores at the end of the name of a
    function off, and nothing else: a function whose name is [fn]
    followed by any number of underscores, where [fn] does not end with
    one, reports under the warning [fn]. *)
Theorem warning_of_underscores fn k :
  ¬ ends_with_underscore fn →
  warning_of (fn +:+ underscores k) = fn.
Proof.
  unfold warning_of. induction fn as [|c fn IH]; intros Hend.
  - apply rstrip_underscores_all.
  - change (rstrip_underscores (String c fn +:+ underscores k))
      with (match rstrip_underscores (fn +:+ underscores k) with
            | EmptyString =>
                if Ascii.eqb c "_"%char then EmptyString
                else String c EmptyString
            | r => String c r
            end).
    destruct fn as [|c' fn].
    + change ("" +:+ underscores k) with (underscores k).
      rewrite rstrip_underscores_all.
      destruct (Ascii.eqb_spec c "_"%char) as [->|Hc]; [|done].
      destruct Hend. by exists "".
    + rewrite IH; [done|].
      intros Hfn. apply Hend. destruct Hfn as [t ->]. by exists (String c t).
Qed.

Lemma warning_of_underscores_witness :
  ¬ ends_with_underscore "meaningless_block" ∧
  warning_of ("meaningless_block" +:+ underscores 2) = "meaningless_block".
Proof.
  assert (¬ ends_with_underscore "meaningless_block") as Hend.
  { intros [t Ht].
    do 17 (destruct t as [|? t]; [done|]; injection Ht as _ Ht).
    by destruct t. }
  split; [exact Hend|].
  exact (warning_of_underscores "meaningless_block" 2 Hend).
Defined.

(** ** The trees on which the analysis returns *)

Lemma well_shaped_here n : well_shaped n = true → local_shape n = true.
Proof. destruct n. simpl. by intros [? _]%andb_true_iff. Qed.

Lemma well_shaped_kid n m :
  well_shaped n = true → Some m ∈ kids n → well_shaped m = true.
Proof.
  destruct n as [k o a d ks]. cbn [well_shaped kids].
  intros [_ Hks]%andb_true_iff Hm.
  induction ks as [|[kid|] ks IH]; [set_solver| |].
  - apply andb_true_iff in Hks as [Hkid Hks].
    apply elem_of_cons in Hm as [[= ->]|Hm]; [done|by apply IH].
  - apply elem_of_cons in Hm as [[=]|Hm]. by apply IH.
Qed.

Lemma block_loop_returns l :
  Forall returns l →
  ∀ n up i e, ∃ E, block_loop _get_exit_points n up l i e = Ok E.
Proof.
  induction 1 as [|[kid|] l Hkid _ IH]; intros n up i e; simpl; [eauto| |].
  - destruct (Hkid kid eq_refl ((n, i) :: up)) as [Ek ->]. simpl. apply IH.
  - apply IH.
Qed.

Lemma switch_loop_returns l :
  Forall (λ c, ∃ m v body,
            c = Some m ∧ kids m = [v; Some body] ∧ returns (Some body)) l →
  ∀ s up i e dflt fallthru,
    None ∈ e →
    ∃ e' dflt' fallthru',
      switch_loop _get_exit_points s up l i (e, dflt, fallthru) =
        Ok (e', dflt', fallthru') ∧
      None ∈ e'.
Proof.
  induction 1 as [|c l (m & v & body & -> & Hm & Hbody) _ IH];
    intros s up i e dflt fallthru HNone; simpl; [eauto|].
  destruct m as [ck co ca cd cks]. simpl in Hm. subst cks.
  destruct (Hbody body eq_refl
              ((Node ck co ca cd [v; Some body], 1) :: (s, i) :: up))
    as [Eb ->].
  simpl. apply IH. set_solver.
Qed.

Lemma on_last_kid_returns l m :
  last l = Some (Some m) →
  returns (Some m) →
  ∀ n up i, ∃ E, on_last_kid _get_exit_points n up l i = Ok E.
Proof.
  intros Hlast Hm. induction l as [|kid l IH]; intros n up i; [done|].
  destruct l as [|kid' l].
  - injection Hlast as ->. simpl. by apply Hm.
  - rewrite last_cons_cons in Hlast. destruct kid; by apply IH.
Qed.

Lemma well_shaped_returns n :
  well_shaped n = true → ∀ up, ∃ E, _get_exit_points n up = Ok E.
Proof.
  induction n as [k o a d ks IH] using node_deep_ind.
  set (P := λ n, well_shaped n = true →
                 ∀ up, ∃ E, _get_exit_points n up = Ok E) in IH.
  intros Hshaped.
  assert (∀ m, Some m ∈ ks → deep P m ∧ well_shaped m = true) as Hd.
  { intros m Hm. rewrite Forall_forall in IH. split; [by apply (IH _ Hm)|].
    by apply (well_shaped_kid (Node k o a d ks)). }
  assert (∀ n m, deep P n → well_shaped n = true → Some m ∈ kids n →
            deep P m ∧ well_shaped m = true) as Hstep.
  { intros n m Hn Hj Hm. split; [by apply (deep_kid P n)|].
    by apply (well_shaped_kid n). }
  assert (∀ m, deep P m ∧ well_shaped m = true → returns (Some m)) as Hret.
  { intros m [Hm Hj] ? [= <-]. by apply (deep_here P m). }
  assert (Forall returns ks) as Hks.
  { rewrite Forall_forall. intros x Hx m ->.
    apply (Hret m (Hd m Hx) m eq_refl). }
  clear IH. apply well_shaped_here in Hshaped as Hlocal.
  unfold local_shape in Hlocal. cbn [kind kids] in Hlocal.
  intros up. destruct k; try (simpl; by eauto).
  - (* tok.LC *) by apply block_loop_returns.
  - (* tok.IF *)
    destruct ks as [|c [|[t|] [|e [|]]]]; try done. simpl.
    apply Forall_cons_1 in Hks as [_ [Ht [He _]%Forall_cons_1]%Forall_cons_1].
    destruct (Ht t eq_refl ((Node tok.IF o a d [c; Some t; e], 1) :: up))
      as [Et ->].
    simpl. destruct e as [e|]; [|eauto].
    destruct (He e eq_refl
                ((Node tok.IF o a d [c; Some t; Some e], 2) :: up))
      as [Ee ->].
    simpl. eauto.
  - (* tok.SWITCH *)
    destruct ks as [|v [|[[sk so sa sd cases]|] [|]]]; try done.
    cbn [kids] in Hlocal. simpl.
    set (stmts := Node sk so sa sd cases) in *.
    destruct (Hd stmts) as [Hstmts Hj]; [set_solver|].
    destruct (switch_loop_returns cases) with
      (s := stmts) (up := (Node tok.SWITCH o a d [v; Some stmts], 1) :: up)
      (i := 0) (e := ({[None]} : exit_set)) (dflt := false)
      (fallthru := true)
      as (e' & dflt' & fallthru' & -> & HNone); [|set_solver|].
    { rewrite Forall_forall. intros c Hc.
      rewrite forallb_forall in Hlocal.
      pose proof (Hlocal c (proj1 (list_elem_of_In _ _) Hc)) as Hshape.
      destruct c as [m|]; [|done].
      destruct (kids m) as [|cv [|[body|] [|]]] eqn:Hm; try done.
      exists m, cv, body. do 2 (split; [done|]).
      destruct (Hstep stmts m Hstmts Hj Hc) as [Hm1 Hm2].
      apply Hret, (Hstep m body Hm1 Hm2). rewrite Hm. set_solver. }
    rewrite set_remove_member by done. simpl. eauto.
  - (* tok.WITH *)
    destruct (last ks) as [[m|]|] eqn:Hlast; try done. simpl.
    apply (on_last_kid_returns ks m Hlast).
    apply Hret, Hd. by apply last_Some_elem_of.
  - (* tok.TRY *)
    destruct ks as [|[t|] [|[c1|] [|f [|]]]]; try done.
    apply andb_true_iff in Hlocal as [Hk1 Hlocal].
    destruct c1 as [ck1 o1 a1 d1 ks1]. cbn [kind kids] in *.
    destruct ks1 as [|[c2|] [|]]; try done.
    apply andb_true_iff in Hlocal as [Hk2 Hlocal].
    destruct c2 as [ck2 o2 a2 d2 ks2]. cbn [kind kids] in *.
    destruct ks2 as [|[c3|] [|]]; try done.
    apply andb_true_iff in Hlocal as [Hk3 Hlocal].
    destruct c3 as [ck3 o3 a3 d3 ks3]. cbn [kind kids] in *.
    destruct ks3 as [|x [|y [|[cb|] [|]]]]; try done.
    simpl. rewrite Hk1, Hk2, Hk3, Hlocal. simpl.
    set (c3 := Node ck3 o3 a3 d3 [x; y; Some cb]) in *.
    set (c2 := Node ck2 o2 a2 d2 [Some c3]) in *.
    set (c1 := Node ck1 o1 a1 d1 [Some c2]) in *.
    set (n := Node tok.TRY o a d [Some t; Some c1; f]) in *.
    assert (returns (Some cb)) as Hcb.
    { destruct (Hd c1) as [Hc1 Hj1]; [set_solver|].
      destruct (Hstep c1 c2 Hc1 Hj1) as [Hc2 Hj2]; [set_solver|].
      destruct (Hstep c2 c3 Hc2 Hj2) as [Hc3 Hj3]; [set_solver|].
      apply Hret, (Hstep c3 cb Hc3 Hj3). set_solver. }
    apply Forall_cons_1 in Hks as [Ht [_ [Hf _]%Forall_cons_1]%Forall_cons_1].
    destruct (Ht t eq_refl ((n, 0) :: up)) as [Et ->]. simpl.
    destruct (Hcb cb eq_refl
                ((c3, 2) :: (c2, 0) :: (c1, 0) :: (n, 1) :: up))
      as [Ec ->].
    simpl. destruct f as [f|]; [|eauto].
    destruct (Hf f eq_refl ((n, 2) :: up)) as [Ef ->]. simpl.
    destruct (decide (None ∈ Ef)); eauto.
Qed.

Lemma switch_loop_shape rec l :
  ∀ s up i st st',
    switch_loop rec s up l i st = Ok st' →
    forallb (λ c, match c with
                  | Some c => match kids c with
                              | [_; Some _] => true
                              | _ => false
                              end
                  | None => false
                  end) l = true.
Proof.
  induction l as [|[c|] l IH]; intros s up i st st'; simpl; [done| |done].
  destruct c as [ck co ca cd [|v [|[body|] [|]]]]; simpl; try done.
  destruct st as [[e dflt] fallthru].
  destruct (rec body _); simpl; [|done]. apply IH.
Qed.

Lemma on_last_kid_shape rec l :
  ∀ n up i E,
    on_last_kid rec n up l i = Ok E → ∃ m, last l = Some (Some m).
Proof.
  induction l as [|kid l IH]; intros n up i E; [done|].
  destruct l as [|kid' l].
  - destruct kid as [kid|]; simpl; [eauto|done].
  - rewrite last_cons_cons. destruct kid; apply IH.
Qed.

(** X21: on a tree every node of which has the slots that the analysis
    expects, [_get_exit_points] returns a set; and it raises whenever the
    node that it is called on does not have them. *)
Theorem _get_exit_points_returns n up :
  (well_shaped n = true → ∃ E, _get_exit_points n up = Ok E) ∧
  (∀ E, _get_exit_points n up = Ok E → local_shape n = true).
Proof.
  split; [intros Hshaped; by apply well_shaped_returns|].
  destruct n as [k o a d ks]. intros E. unfold local_shape.
  cbn [kind kids]. destruct k; try done.
  - (* tok.IF *) by destruct ks as [|c [|[t|] [|e [|]]]].
  - (* tok.SWITCH *)
    destruct ks as [|v [|[[sk so sa sd cases]|] [|]]]; try done. simpl.
    destruct (switch_loop _ _ _ _ _ _) as [st|] eqn:Hloop; [|done].
    intros _. by eapply switch_loop_shape.
  - (* tok.WITH *)
    simpl. intros [m ->]%on_last_kid_shape. done.
  - (* tok.TRY *)
    destruct ks as [|t [|[[ck1 o1 a1 d1 ks1]|] [|f [|]]]]; try done. simpl.
    destruct (bool_decide (ck1 = tok.RESERVED)); simpl; [|done].
    destruct ks1 as [|[[ck2 o2 a2 d2 ks2]|] [|]]; try done. simpl.
    destruct (bool_decide (ck2 = tok.LEXICALSCOPE)); simpl; [|done].
    destruct ks2 as [|[[ck3 o3 a3 d3 ks3]|] [|]]; try done. simpl.
    destruct (bool_decide (ck3 = tok.CATCH)); simpl; [|done].
    destruct ks3 as [|x [|y [|[cb|] [|]]]]; try done. simpl.
    destruct (bool_decide (kind cb = tok.LC)); simpl; [|done].
    by destruct t.
Qed.

Lemma _get_exit_points_returns_witness :
  let n := js_block
             [js_try [js_expr (js_call "f")] "e" [js_return]
                (Some (js_block [js_expr (js_call "g")]));
              js_switch (js_name "x")
                [js_case (js_number "1" 1%float) [js_break];
                 js_default [js_if (js_name "c") js_return None]]] in
  well_shaped n = true ∧ ∃ E, _get_exit_points n [] = Ok E.
Proof.
  intros n. split; [reflexivity|].
  exact (proj1 (_get_exit_points_returns n []) eq_refl).
Defined.

(** ** An if without else at the end of a case *)

(** X22: a case whose body ends with an [if] without [else], the branch
    of which cannot fall through, gets no warning from [missing_break] and
    [missing_break_for_last_case], although control that skips the [if]
    falls out of the case: the exit points of an [if] without [else] are
    those of its branch. *)
Theorem if_without_else_hides_fall_through
    c pn i up bo ba bd front io ia id cond t sets Et :
  kids c !! 1 =
    Some (Some (Node tok.LC bo ba bd
                  (front ++ [Some (Node tok.IF io ia id
                                     [cond; Some t; None])]))) →
  Forall2 (λ kid E, slot_exit_points kid = Ok E) front sets →
  _get_exit_points t [] = Ok Et →
  None ∉ Et →
  missing_break (NodeObj c ((pn, i) :: up)) = Ok tt ∧
  missing_break_for_last_case (NodeObj c ((pn, i) :: up)) = Ok tt.
Proof.
  intros Hbody Hfront Ht HNone.
  set (stmt := Node tok.IF io ia id [cond; Some t; None]) in *.
  assert (Forall2 (λ kid E, slot_exit_points kid = Ok E)
            (front ++ [Some stmt]) (sets ++ [Et])) as Hall.
  { apply Forall2_app; [exact Hfront|]. constructor; [|constructor].
    simpl. by rewrite (_get_exit_points_up t _ []), Ht. }
  assert (None ∉ foldl (λ e E, e ∖ {[None]} ∪ E) ({[None]} : exit_set)
                   (sets ++ [Et])) as HNoneE
    by (by rewrite foldl_exit_points_none, last_snoc).
  unfold missing_break, missing_break_for_last_case. simpl.
  rewrite Hbody. simpl.
  rewrite (block_loop_exit_points _ _ Hall). simpl.
  rewrite !decide_False by done.
  rewrite (bool_decide_eq_false_2 (front ++ [Some stmt] = []))
    by (by destruct front).
  split; by destruct (bool_decide _).
Qed.

Lemma if_without_else_hides_fall_through_witness :
  let t := js_block [js_break] in
  let c := js_case (js_number "1" 1%float)
             [js_expr (js_call "f"); js_if (js_name "done") t None] in
  let pn := js_block [c; js_default [js_break]] in
  (kids c !! 1 =
     Some (Some (Node tok.LC op.NOP "" 0%float
                   ([Some (js_expr (js_call "f"))] ++
                    [Some (Node tok.IF op.NOP "" 0%float
                             [Some (js_name "done"); Some t; None])]))) ∧
   Forall2 (λ kid E, slot_exit_points kid = Ok E)
     [Some (js_expr (js_call "f"))] [{[None]}] ∧
   _get_exit_points t [] = Ok {[Some tok.BREAK]} ∧
   None ∉ ({[Some tok.BREAK]} : exit_set)) ∧
  missing_break (NodeObj c [(pn, 0)]) = Ok tt ∧
  missing_break_for_last_case (NodeObj c [(pn, 0)]) = Ok tt.
Proof.
  intros t c pn.
  assert (Forall2 (λ kid E, slot_exit_points kid = Ok E)
            [Some (js_expr (js_call "f"))] [{[None]}]) as Hfront
    by repeat constructor.
  assert (_get_exit_points t [] = Ok {[Some tok.BREAK]}) as Ht
    by (vm_compute; reflexivity).
  assert (None ∉ ({[Some tok.BREAK]} : exit_set)) as HNone by set_solver.
  split; [by repeat split|].
  exact (if_without_else_hides_fall_through c pn 0 [] op.NOP "" 0%float
           [Some (js_expr (js_call "f"))] op.NOP "" 0%float
           (Some (js_name "done")) t [{[None]}] {[Some tok.BREAK]}
           eq_refl Hfront Ht HNone).
Defined.

(** ** An else outside of every block *)

(** X23: on an [if] with an [else] branch such that neither the [if] nor
    an ancestor of it is a block or the first branch of an [if],
    [ambiguous_else_stmt] goes up to the top of the tree and raises
    [AttributeError] there. *)
Theorem ambiguous_else_stmt_at_top n up condition if_ else_ :
  kids n = [condition; if_; Some else_] →
  Forall (λ m, kind m ≠ tok.LC) (chain n up) →
  Forall (λ entry, ¬ in_then_position entry) up →
  ambiguous_else_stmt (NodeObj n up) = Raise AttributeError.
Proof.
  intros Hkids Hchain Hthen. unfold ambiguous_else_stmt. simpl.
  rewrite Hkids. simpl. clear Hkids.
  generalize (NodeObj else_ ((n, 2) :: up)). intros target.
  revert n Hchain. induction Hthen as [|[p i] up Hentry _ IH];
    intros n Hchain; unfold chain in Hchain;
    apply Forall_cons_1 in Hchain as [Hn Hchain]; simpl.
  - by rewrite bool_decide_eq_false_2.
  - rewrite bool_decide_eq_false_2 by done.
    unfold in_then_position in Hentry. simpl in Hentry.
    destruct (bool_decide (kind p = tok.IF) && bool_decide (i = 1))
      eqn:Hpos.
    + apply andb_true_iff in Hpos as [?%bool_decide_eq_true
                                        ?%bool_decide_eq_true].
      naive_solver.
    + by apply IH.
Qed.

Lemma ambiguous_else_stmt_at_top_witness :
  let else_ := js_expr (js_call "g") in
  let n := js_if (js_name "a") (js_expr (js_call "f")) (Some else_) in
  let loop := js_node tok.WHILE [Some (js_name "b"); Some n] in
  let up := [(loop, 1)] in
  (kids n = [Some (js_name "a"); Some (js_expr (js_call "f")); Some else_] ∧
   Forall (λ m, kind m ≠ tok.LC) (chain n up) ∧
   Forall (λ entry, ¬ in_then_position entry) up) ∧
  ambiguous_else_stmt (NodeObj n up) = Raise AttributeError.
Proof.
  intros else_ n loop up.
  assert (Forall (λ m, kind m ≠ tok.LC) (chain n up)) as Hchain
    by (repeat constructor; done).
  assert (Forall (λ entry, ¬ in_then_position entry) up) as Hthen.
  { repeat constructor. by intros [? _]. }
  split; [by repeat split|].
  exact (ambiguous_else_stmt_at_top n up (Some (js_name "a"))
           (Some (js_expr (js_call "f"))) else_ eq_refl Hchain Hthen).
Defined.

(** ** The two functions on blocks *)

(** X24: [empty_statement_] and [meaningless_block__], the two functions
    registered under [tok.LC], test [node.parent] before they read its
    kind: on the outermost block both return without a warning, and on no
    node do they raise anything but a warning on the node itself. *)
Theorem block_functions_guard_parent (o : nodeobj) :
  (parent o = None →
   empty_statement_ o = Ok tt ∧ meaningless_block__ o = Ok tt) ∧
  (∀ e, empty_statement_ o = Raise e ∨ meaningless_block__ o = Raise e →
        e = LintWarning (Some o)).
Proof.
  unfold empty_statement_, meaningless_block__. split.
  - intros ->. by destruct (bool_decide _).
  - intros e. destruct (parent o) as [p|].
    + unfold raise_warning.
      intros [He|He]; repeat (destruct (bool_decide _); try done);
        congruence.
    + intros [He|He]; [by destruct (bool_decide _)|done].
Qed.

Lemma block_functions_guard_parent_witness :
  let inner := js_block [] in
  let outer := js_block [inner] in
  let o := NodeObj inner [(outer, 0)] in
  (empty_statement_ o = Raise (LintWarning (Some o)) ∨
   meaningless_block__ o = Raise (LintWarning (Some o))) ∧
  LintWarning (Some o) = LintWarning (Some o) ∧
  empty_statement_ (NodeObj outer []) = Ok tt ∧
  meaningless_block__ (NodeObj outer []) = Ok tt.
Proof.
  intros inner outer o.
  assert (empty_statement_ o = Raise (LintWarning (Some o)) ∨
          meaningless_block__ o = Raise (LintWarning (Some o))) as Hraise
    by (left; reflexivity).
  split; [exact Hraise|]. split.
  - exact (proj2 (block_functions_guard_parent o) _ Hraise).
  - exact (proj1 (block_functions_guard_parent (NodeObj outer [])) eq_refl).
Defined.
